(** * fuzzy-ratio: a shallow embedding of [src/index.ts]

    The library exposes one pure function, [fuzzRatio], which looks for
    small-integer aspect ratios close to a pixel width and height.

    ** Number model

    TypeScript's [number] is embedded with exact arithmetic:
    - [Z] where the program works on integers: the two dimensions, the
      divisors, the operands of [%], the results of [Math.floor] and
      [Math.round], and the quotients [mod / divisor],
      [ratio / nextGcd], which are divisions of a multiple by its factor
      (lemmas [getError_mod_multiple] and [candidate_nextGcd] show that
      the integer division written for them is exact);
    - [Q] where the values are fractional: [width / div], the ranges, the
      percentages and the tolerance.
    Rounding of IEEE doubles is not part of the model. *)

From Equations Require Import Equations.
From Stdlib Require Import ZArith QArith Qround Qabs List Sorted Permutation Lia Lqa Bool.
From Stdlib Require Import Ascii String DecimalString DecimalZ.
From Stdlib Require Import Znumtheory.
Import ListNotations.

Local Open Scope Z_scope.

(** ** The [Math] object and the comparisons of numbers *)

Definition Math_floor (x : Q) : Z := Qfloor x.

(** [Math.round] rounds to the nearest integer, halves towards +infinity. *)
Definition Math_round (x : Q) : Z := Qfloor (x + (1 # 2)).

Definition Math_abs (x : Q) : Q := Qabs x.

Definition Math_pow (x : Q) (n : Z) : Q := Qpower x n.

Definition Qltb (x y : Q) : bool := negb (Qle_bool y x).

(** ** Data model *)

Module Ratio.
Record t : Type := mk { width : Q; height : Q }.
End Ratio.

Module Fuzz.
Inductive type : Type := percent | range.
End Fuzz.

Module Options.
Record t : Type := mk {
  width : Z;
  height : Z;
  type : Fuzz.type;
  tolerance : Q;
  allowedRatios : option (list Ratio.t)
}.
End Options.

Module ErrorRatio.
Record t : Type := mk { range : Q; percent : Q; ratio : Z; mod_ : Z }.
End ErrorRatio.

(** The object [{ width: ErrorRatio; height: ErrorRatio }]. *)
Module Error.
Record t : Type := mk { width : ErrorRatio.t; height : ErrorRatio.t }.
End Error.

Module AcceptableRatio.
Record t : Type := mk {
  width : Q;
  height : Q;
  div : Z;
  error : option Error.t
}.
End AcceptableRatio.

(** [toFuzzed] also copies [ratio] into the object it builds. *)
Module RatioError.
Record t : Type := mk { diff : Q; percent : Q; mod_ : Z; ratio : Z }.
End RatioError.

Module FuzzError.
Record t : Type := mk { width : RatioError.t; height : RatioError.t }.
End FuzzError.

(** The [width] and [height] of a [FuzzRatio] are always the re-reduced
    error ratios, which are integers; [original] is the fractional pair. *)
Module FuzzRatio.
Record t : Type := mk {
  width : Z;
  height : Z;
  error : FuzzError.t;
  original : Ratio.t
}.
End FuzzRatio.

Module Result.
Record t : Type := mk {
  ratio : Ratio.t;
  fuzzed : option FuzzRatio.t;
  alts : option (list FuzzRatio.t)
}.
End Result.

(** ** [getGcd]

    [left % right] keeps the sign of the dividend, as [Z.rem] does. The
    recursion is on the absolute value of the second argument. *)

Equations? getGcd (lhs rhs : Z) : Z by wf (Z.abs_nat rhs) lt :=
  getGcd lhs rhs with Z.eq_dec rhs 0 => {
    | Specif.left _ := lhs;
    | Specif.right _ := getGcd rhs (Z.rem lhs rhs) }.
Proof.
  pose proof (Z.rem_bound_abs lhs rhs ltac:(assumption)). lia.
Qed.

(** The call tree of [getGcd] as a relation: [getGcd_calls l r g n] says
    that the call on [l] and [r] returns [g] after [n] nested calls. *)
Inductive getGcd_calls : Z -> Z -> Z -> nat -> Prop :=
| calls_return : forall lhs, getGcd_calls lhs 0 lhs 1
| calls_recurse : forall lhs rhs g n,
    rhs <> 0 ->
    getGcd_calls rhs (Z.rem lhs rhs) g n ->
    getGcd_calls lhs rhs g (S n).

(** ** [getDivisors] *)

Equations? getDivisors_loop (i half : Z) (divs : list Z) : list Z
  by wf (Z.to_nat (half + 1 - i)) lt :=
  getDivisors_loop i half divs with Z_le_dec i half => {
    | Specif.left _ := getDivisors_loop (i + 1) half (divs ++ [i]);
    | Specif.right _ := divs }.
Proof. lia. Qed.

Definition getDivisors (left right : Z) : list Z :=
  let value := if left <? right then left else right in
  let half := Math_floor (inject_Z value / 2) in
  getDivisors_loop 2 half [].

(** ** [round] and [getError] *)

Definition round (value : Q) : Q :=
  let multiplier := Math_pow 10 2 in
  (inject_Z (Math_round (value * multiplier)) / multiplier)%Q.

Definition getError (value : Q) (divisor : Z) : ErrorRatio.t :=
  let original := (value * inject_Z divisor)%Q in
  let mod_ := Math_floor value * divisor in
  let ratio := mod_ / divisor in
  let closest :=
    if Qltb (Math_abs (inject_Z mod_ - inject_Z ratio - original))
            (Math_abs (inject_Z mod_ - original))
    then mod_ - ratio else mod_ in
  let range := Math_abs (original - inject_Z closest) in
  let percent := round (range / original * 100) in
  ErrorRatio.mk range percent ratio mod_.

(** ** [toFuzzed] *)

Definition toFuzzed (ratio : AcceptableRatio.t) (error : Error.t) : FuzzRatio.t :=
  let ew := Error.width error in
  let eh := Error.height error in
  {| FuzzRatio.width := ErrorRatio.ratio ew;
     FuzzRatio.height := ErrorRatio.ratio eh;
     FuzzRatio.error :=
       {| FuzzError.width :=
            {| RatioError.diff := ErrorRatio.range ew;
               RatioError.percent := ErrorRatio.percent ew;
               RatioError.mod_ := ErrorRatio.mod_ ew;
               RatioError.ratio := ErrorRatio.ratio ew |};
          FuzzError.height :=
            {| RatioError.diff := ErrorRatio.range eh;
               RatioError.percent := ErrorRatio.percent eh;
               RatioError.mod_ := ErrorRatio.mod_ eh;
               RatioError.ratio := ErrorRatio.ratio eh |} |};
     FuzzRatio.original :=
       {| Ratio.width := AcceptableRatio.width ratio;
          Ratio.height := AcceptableRatio.height ratio |} |}.

(** ** Arrays and maps of the runtime

    [Array.prototype.sort] is stable, and the comparison function used
    below orders candidates by a number, so the sorted array is the one
    that a stable insertion sort builds. The comparison function returns
    a positive number when its first argument has to come later. *)

Section ArraySort.
Context {A : Type} (compareFn : A -> A -> Z).

Fixpoint Array_sort_insert (x : A) (l : list A) : list A :=
  match l with
  | [] => [x]
  | y :: l' =>
      if 0 <? compareFn x y then y :: Array_sort_insert x l' else x :: l
  end.

Fixpoint Array_sort (l : list A) : list A :=
  match l with
  | [] => []
  | x :: l' => Array_sort_insert x (Array_sort l')
  end.
End ArraySort.

(** A [Map<string, V>] keeps its entries in insertion order; [set] on a
    key that is present replaces the value where the entry stands. *)

Section JsMap.
Context {V : Type}.

Definition Map : Type := list (string * V).

Fixpoint Map_get (id : string) (m : Map) : option V :=
  match m with
  | [] => None
  | (k, v) :: m' => if String.eqb k id then Some v else Map_get id m'
  end.

Fixpoint Map_set (id : string) (v : V) (m : Map) : Map :=
  match m with
  | [] => [(id, v)]
  | (k, w) :: m' =>
      if String.eqb k id then (k, v) :: m' else (k, w) :: Map_set id v m'
  end.

Definition Map_values (m : Map) : list V := List.map snd m.
End JsMap.

(** An integer in a template string is printed in decimal notation. *)
Definition Number_toString (n : Z) : string :=
  NilZero.string_of_int (Z.to_int n).

(** ** [fuzzRatio] *)

(** [div => ({ width: width / div, height: height / div, div })] *)
Definition ratioOf (options : Options.t) (div : Z) : AcceptableRatio.t :=
  {| AcceptableRatio.width := (inject_Z (Options.width options) / inject_Z div)%Q;
     AcceptableRatio.height := (inject_Z (Options.height options) / inject_Z div)%Q;
     AcceptableRatio.div := div;
     AcceptableRatio.error := None |}.

Definition ratios (options : Options.t) : list AcceptableRatio.t :=
  let divs := getDivisors (Options.width options) (Options.height options) in
  List.map (ratioOf options) divs.

Definition isExact (ratio : AcceptableRatio.t) : bool :=
  Qeq_bool (AcceptableRatio.height ratio)
           (inject_Z (Math_round (AcceptableRatio.height ratio)))
  && Qeq_bool (AcceptableRatio.width ratio)
              (inject_Z (Math_round (AcceptableRatio.width ratio))).

(** The two errors of a candidate, their ratios divided by [nextGcd]. *)
Definition reducedError (ratio : AcceptableRatio.t) : Error.t :=
  let ew := getError (AcceptableRatio.width ratio) (AcceptableRatio.div ratio) in
  let eh := getError (AcceptableRatio.height ratio) (AcceptableRatio.div ratio) in
  let nextGcd := getGcd (ErrorRatio.ratio ew) (ErrorRatio.ratio eh) in
  {| Error.width :=
       ErrorRatio.mk (ErrorRatio.range ew) (ErrorRatio.percent ew)
                     (ErrorRatio.ratio ew / nextGcd) (ErrorRatio.mod_ ew);
     Error.height :=
       ErrorRatio.mk (ErrorRatio.range eh) (ErrorRatio.percent eh)
                     (ErrorRatio.ratio eh / nextGcd) (ErrorRatio.mod_ eh) |}.

Definition withinTolerance (options : Options.t) (error : Error.t) : bool :=
  let tolerance := Options.tolerance options in
  match Options.type options with
  | Fuzz.percent =>
      Qle_bool (ErrorRatio.percent (Error.width error)) tolerance
      && Qle_bool (ErrorRatio.percent (Error.height error)) tolerance
  | Fuzz.range =>
      Qle_bool (ErrorRatio.range (Error.width error)) tolerance
      && Qle_bool (ErrorRatio.range (Error.height error)) tolerance
  end.

(** [{ ...ratio, error }] *)
Definition withError (ratio : AcceptableRatio.t) (error : Error.t) : AcceptableRatio.t :=
  {| AcceptableRatio.width := AcceptableRatio.width ratio;
     AcceptableRatio.height := AcceptableRatio.height ratio;
     AcceptableRatio.div := AcceptableRatio.div ratio;
     AcceptableRatio.error := Some error |}.

(** One turn of the loop over [ratios]: at most two pushes. *)
Definition evaluate (options : Options.t)
    (acceptableRatios : list AcceptableRatio.t) (ratio : AcceptableRatio.t)
    : list AcceptableRatio.t :=
  let acceptableRatios :=
    if isExact ratio then acceptableRatios ++ [ratio] else acceptableRatios in
  let error := reducedError ratio in
  if withinTolerance options error
  then acceptableRatios ++ [withError ratio error]
  else acceptableRatios.

Definition acceptableRatios (options : Options.t) : list AcceptableRatio.t :=
  fold_left (evaluate options) (ratios options) [].

Definition effectiveWidth (ratio : AcceptableRatio.t) : Q :=
  match AcceptableRatio.error ratio with
  | Some error => inject_Z (ErrorRatio.ratio (Error.width error))
  | None => AcceptableRatio.width ratio
  end.

Definition effectiveHeight (ratio : AcceptableRatio.t) : Q :=
  match AcceptableRatio.error ratio with
  | Some error => inject_Z (ErrorRatio.ratio (Error.height error))
  | None => AcceptableRatio.height ratio
  end.

Definition isAllowed (options : Options.t) (ratio : AcceptableRatio.t) : bool :=
  match Options.allowedRatios options with
  | None => true
  | Some allowedList =>
      let width := effectiveWidth ratio in
      let height := effectiveHeight ratio in
      (AcceptableRatio.div ratio =? 1)
      || existsb
           (fun allowed =>
              Qeq_bool (Ratio.width allowed) width
              && Qeq_bool (Ratio.height allowed) height)
           allowedList
  end.

Definition allowedRatios (options : Options.t) : list AcceptableRatio.t :=
  filter (isAllowed options) (acceptableRatios options).

Definition sumOf (ratio : AcceptableRatio.t) : Q :=
  match AcceptableRatio.error ratio with
  | Some error =>
      (inject_Z (ErrorRatio.ratio (Error.width error))
       + inject_Z (ErrorRatio.ratio (Error.height error)))%Q
  | None => (AcceptableRatio.width ratio + AcceptableRatio.height ratio)%Q
  end.

Definition compareSums (left right : AcceptableRatio.t) : Z :=
  let leftSum := sumOf left in
  let rightSum := sumOf right in
  if Qltb rightSum leftSum then 1
  else if Qeq_bool leftSum rightSum then 0 else -1.

Definition sorted (options : Options.t) : list AcceptableRatio.t :=
  Array_sort compareSums (allowedRatios options).

Definition idOf (fuzzed : FuzzRatio.t) : string :=
  (Number_toString (FuzzRatio.width fuzzed) ++ ":"
   ++ Number_toString (FuzzRatio.height fuzzed))%string.

Definition percentSum (fuzzed : FuzzRatio.t) : Q :=
  (RatioError.percent (FuzzError.width (FuzzRatio.error fuzzed))
   + RatioError.percent (FuzzError.height (FuzzRatio.error fuzzed)))%Q.

(** One turn of the loop over [sorted.slice(1)]. *)
Definition collectAlt (alts : Map) (ratio : AcceptableRatio.t) : Map :=
  match AcceptableRatio.error ratio with
  | None => alts
  | Some error =>
      let fuzzed := toFuzzed ratio error in
      let id := idOf fuzzed in
      match Map_get id alts with
      | None => Map_set id fuzzed alts
      | Some existing =>
          let existingDiff := percentSum existing in
          let newDiff :=
            (ErrorRatio.percent (Error.width error)
             + ErrorRatio.percent (Error.height error))%Q in
          if Qltb newDiff existingDiff then Map_set id fuzzed alts else alts
      end
  end.

Definition unfuzzed (options : Options.t) : Ratio.t :=
  let unfuzzedDiv := getGcd (Options.width options) (Options.height options) in
  {| Ratio.width := (inject_Z (Options.width options) / inject_Z unfuzzedDiv)%Q;
     Ratio.height := (inject_Z (Options.height options) / inject_Z unfuzzedDiv)%Q |}.

Definition fuzzRatio (options : Options.t) : Result.t :=
  let ratio := unfuzzed options in
  match sorted options with
  | [] => {| Result.ratio := ratio; Result.fuzzed := None; Result.alts := None |}
  | fuzzed :: rest =>
      let fuzzedRatio :=
        match AcceptableRatio.error fuzzed with
        | Some error => Some (toFuzzed fuzzed error)
        | None => None
        end in
      let alts := fold_left collectAlt rest [] in
      {| Result.ratio := ratio;
         Result.fuzzed := fuzzedRatio;
         Result.alts := Some (Map_values alts) |}
  end.

(** ** The earlier version of the library

    The second source file is an earlier [fuzzRatio]. Its loop over the
    ratios, its filter, its comparison function, [getGcd] and [round] are
    the text of [src/index.ts], and its [getError] differs only by not
    returning [mod]; the definitions above are used for them. What
    differs is modelled here: [getDivisors], which collects the remainders
    of Euclid's algorithm, the result without [alts], and the reading of
    [sorted[0].error] with no test that [sorted[0]] exists. A call that
    throws returns the exception on the left. *)

Module Legacy.

Inductive Thrown : Type := RangeError | TypeError.

(** [left % 0] is [NaN], which never equals 0: with [right = 0] the
    recursion does not end and the call stack overflows. *)
Equations? getDivisors (lhs rhs : Z) (divs : list Z) : Thrown + list Z
  by wf (Z.abs_nat rhs) lt :=
  getDivisors lhs rhs divs with Z.eq_dec rhs 0 => {
    | Specif.left _ := inl RangeError;
    | Specif.right _ with Z.eq_dec (Z.rem lhs rhs) 0 => {
        | Specif.left _ := inr divs;
        | Specif.right _ :=
            getDivisors rhs (Z.rem lhs rhs) (divs ++ [Z.rem lhs rhs]) } }.
Proof.
  pose proof (Z.rem_bound_abs lhs rhs ltac:(assumption)). lia.
Qed.

Module ErrorResult.
Record t : Type := mk { diff : Q; percent : Q }.
End ErrorResult.

Module Fuzzed.
Record t : Type := mk {
  width : Z;
  height : Z;
  error_width : ErrorResult.t;
  error_height : ErrorResult.t;
  original : Ratio.t
}.
End Fuzzed.

Module Result.
Record t : Type := mk { ratio : Ratio.t; fuzzed : option Fuzzed.t }.
End Result.

Definition sorted (options : Options.t) (divs : list Z) : list AcceptableRatio.t :=
  let ratios := List.map (ratioOf options) divs in
  let acceptableRatios := fold_left (evaluate options) ratios [] in
  let allowedRatios := filter (isAllowed options) acceptableRatios in
  Array_sort compareSums allowedRatios.

Definition fuzzedOf (fuzzed : AcceptableRatio.t) : option Fuzzed.t :=
  match AcceptableRatio.error fuzzed with
  | Some error =>
      Some
        {| Fuzzed.width := ErrorRatio.ratio (Error.width error);
           Fuzzed.height := ErrorRatio.ratio (Error.height error);
           Fuzzed.error_width :=
             ErrorResult.mk (ErrorRatio.range (Error.width error))
                            (ErrorRatio.percent (Error.width error));
           Fuzzed.error_height :=
             ErrorResult.mk (ErrorRatio.range (Error.height error))
                            (ErrorRatio.percent (Error.height error));
           Fuzzed.original :=
             {| Ratio.width := AcceptableRatio.width fuzzed;
                Ratio.height := AcceptableRatio.height fuzzed |} |}
  | None => None
  end.

Definition fuzzRatio (options : Options.t) : Thrown + Result.t :=
  match getDivisors (Options.width options) (Options.height options) [] with
  | inl thrown => inl thrown
  | inr divs =>
      match sorted options divs with
      | [] => inl TypeError
      | fuzzed :: _ =>
          inr {| Result.ratio := unfuzzed options;
                 Result.fuzzed := fuzzedOf fuzzed |}
      end
  end.

End Legacy.

(** ** Auxiliary notions for the statements below *)

(** [occurs c s]: the character [c] is in the string [s]. *)
Fixpoint occurs (c : ascii) (s : string) : Prop :=
  match s with
  | EmptyString => False
  | String a s' => a = c \/ occurs c s'
  end.

(** What the loop over [sorted.slice(1)] maintains, [seen] being the
    candidates it has gone through: the keys are distinct; every entry is
    the [FuzzRatio] of a candidate seen, under its own key; and every
    error-bearing candidate seen has an entry under its key whose combined
    percentage is not above its own. *)
Record alts_inv (seen : list AcceptableRatio.t) (alts : @Map FuzzRatio.t) : Prop := {
  inv_keys : NoDup (List.map fst alts);
  inv_entries : forall k v, In (k, v) alts ->
    k = idOf v /\
    exists c e, In c seen /\ AcceptableRatio.error c = Some e /\ v = toFuzzed c e;
  inv_best : forall c e, In c seen -> AcceptableRatio.error c = Some e ->
    exists v, Map_get (idOf (toFuzzed c e)) alts = Some v /\
              (percentSum v <= percentSum (toFuzzed c e))%Q
}.

(** The candidates that a result shows: [fuzzed] and the entries of
    [alts]. *)
Definition surfaced (result : Result.t) (fuzzed : FuzzRatio.t) : Prop :=
  Result.fuzzed result = Some fuzzed \/
  exists alts, Result.alts result = Some alts /\ In fuzzed alts.

(** The bare result [{ ratio }]. *)
Definition bare (result : Result.t) : Prop :=
  Result.fuzzed result = None /\ Result.alts result = None.

(** [ratio] is the pair [w : h] in lowest terms. *)
Definition is_gcd_reduction (w h : Z) (ratio : Ratio.t) : Prop :=
  exists a b : Z,
    a = w / Z.gcd w h /\ b = h / Z.gcd w h /\
    (Ratio.width ratio == inject_Z a)%Q /\
    (Ratio.height ratio == inject_Z b)%Q /\
    0 < a /\ 0 < b /\
    Z.gcd a b = 1 /\
    a * h = b * w /\
    (Ratio.width ratio / Ratio.height ratio == inject_Z w / inject_Z h)%Q.

(** The tolerance test, read on a [FuzzRatio]. *)
Definition respectsTolerance (options : Options.t) (fuzzed : FuzzRatio.t) : Prop :=
  let error := FuzzRatio.error fuzzed in
  let tolerance := Options.tolerance options in
  match Options.type options with
  | Fuzz.percent =>
      (RatioError.percent (FuzzError.width error) <= tolerance)%Q /\
      (RatioError.percent (FuzzError.height error) <= tolerance)%Q
  | Fuzz.range =>
      (RatioError.diff (FuzzError.width error) <= tolerance)%Q /\
      (RatioError.diff (FuzzError.height error) <= tolerance)%Q
  end.

(** A candidate passes the allow-list: its divisor is 1 or its effective
    pair is an entry of the list. *)
Definition onAllowList (allowedList : list Ratio.t) (c : AcceptableRatio.t) : Prop :=
  AcceptableRatio.div c = 1 \/
  exists allowed,
    In allowed allowedList /\
    (Ratio.width allowed == effectiveWidth c)%Q /\
    (Ratio.height allowed == effectiveHeight c)%Q.

Definition pairOf (fuzzed : FuzzRatio.t) : Z * Z :=
  (FuzzRatio.width fuzzed, FuzzRatio.height fuzzed).

(** Every entry of [alts] is the [FuzzRatio] of an error-bearing
    candidate of [sorted.slice(1)]. *)
Definition fromLosers (options : Options.t) (alts : list FuzzRatio.t) : Prop :=
  forall fuzzed, In fuzzed alts ->
    exists c e,
      In c (tl (sorted options)) /\
      AcceptableRatio.error c = Some e /\ fuzzed = toFuzzed c e.

(** For every error-bearing candidate of [sorted.slice(1)], the entry of
    [alts] with its pair has at most its combined percentage. *)
Definition keepsLeastError (options : Options.t) (alts : list FuzzRatio.t) : Prop :=
  forall c e,
    In c (tl (sorted options)) ->
    AcceptableRatio.error c = Some e ->
    exists kept,
      In kept alts /\
      pairOf kept = pairOf (toFuzzed c e) /\
      (percentSum kept <= percentSum (toFuzzed c e))%Q.

(** The recursive calls that [fuzzRatio] makes return: the call of
    [getGcd] on the two dimensions, and the one on the two floor ratios
    of each divisor. *)
Definition gcdCallsReturn (options : Options.t) : Prop :=
  (exists n,
     getGcd_calls (Options.width options) (Options.height options)
       (getGcd (Options.width options) (Options.height options)) n) /\
  forall ratio, In ratio (ratios options) ->
    let ew := getError (AcceptableRatio.width ratio) (AcceptableRatio.div ratio) in
    let eh := getError (AcceptableRatio.height ratio) (AcceptableRatio.div ratio) in
    exists n,
      getGcd_calls (ErrorRatio.ratio ew) (ErrorRatio.ratio eh)
        (getGcd (ErrorRatio.ratio ew) (ErrorRatio.ratio eh)) n.



Definition four_by_six : Options.t := Options.mk 4 6 Fuzz.percent 0 None.

Definition sample_options : Options.t := Options.mk 17 9 Fuzz.percent 20 None.

Definition sample_allowed : Options.t :=
  Options.mk 17 9 Fuzz.percent 20 (Some [Ratio.mk 2 1; Ratio.mk 16 9]).

(** The [FuzzRatio] of the candidate of 17 x 9 for the divisor 2. *)
Definition sample_fuzzed : FuzzRatio.t := Eval vm_compute in
  let ratio := AcceptableRatio.mk (17 # 2) (9 # 2) 2 None in
  toFuzzed ratio (reducedError ratio).

(** The [alts] of 17 x 9 within 20 percent. *)
Definition sample_alts : list FuzzRatio.t := Eval vm_compute in
  match Result.alts (fuzzRatio sample_options) with
  | Some alts => alts
  | None => []
  end.

(** * Properties *)

(** ** [getGcd] *)

Lemma getGcd_eq (lhs rhs : Z) :
  getGcd lhs rhs = if rhs =? 0 then lhs else getGcd rhs (Z.rem lhs rhs).
Proof.
  rewrite getGcd_equation_1.
  destruct (Z.eq_dec rhs 0) as [E | E]; simpl.
  - subst. reflexivity.
  - apply Z.eqb_neq in E. rewrite E. reflexivity.
Qed.

Lemma getGcd_0_r (lhs : Z) : getGcd lhs 0 = lhs.
Proof. rewrite getGcd_eq. reflexivity. Qed.

(** On non-negative arguments [getGcd] is the greatest common divisor. *)
Lemma getGcd_gcd (lhs rhs : Z) :
  0 <= lhs -> 0 <= rhs -> getGcd lhs rhs = Z.gcd lhs rhs.
Proof.
  intros Hl Hr. revert lhs Hl. pattern rhs.
  apply Zlt_0_ind; [ | assumption ].
  intros r IH Hr0 l Hl.
  rewrite getGcd_eq.
  destruct (Z.eqb_spec r 0) as [-> | Hne].
  - rewrite Z.gcd_0_r. symmetry. apply Z.abs_eq. assumption.
  - rewrite Z.rem_mod_nonneg by lia.
    pose proof (Z.mod_pos_bound l r ltac:(lia)) as Hb.
    rewrite IH by lia.
    rewrite Z.gcd_comm, Z.gcd_mod by lia.
    apply Z.gcd_comm.
Qed.

Lemma getGcd_divides (lhs rhs : Z) :
  0 <= lhs -> 0 <= rhs ->
  (getGcd lhs rhs | lhs) /\ (getGcd lhs rhs | rhs).
Proof.
  intros Hl Hr. rewrite getGcd_gcd by assumption.
  split; [ apply Z.gcd_divide_l | apply Z.gcd_divide_r ].
Qed.

Lemma getGcd_pos (lhs rhs : Z) :
  0 < lhs -> 0 <= rhs -> 0 < getGcd lhs rhs.
Proof.
  intros Hl Hr. rewrite getGcd_gcd by lia.
  pose proof (Z.gcd_nonneg lhs rhs) as Hn.
  destruct (Z.eq_dec (Z.gcd lhs rhs) 0) as [E | E]; [ | lia ].
  apply Z.gcd_eq_0_l in E. lia.
Qed.

(** Every call of [getGcd] has a finite call tree, whose depth is bounded
    by the absolute value of the second argument. *)
Lemma getGcd_calls_total (lhs rhs : Z) :
  exists n, getGcd_calls lhs rhs (getGcd lhs rhs) n /\ (n <= S (Z.abs_nat rhs))%nat.
Proof.
  remember (Z.abs_nat rhs) as m eqn:Hm.
  revert lhs rhs Hm.
  induction m as [m IH] using lt_wf_ind. intros l r Hm.
  rewrite getGcd_eq.
  destruct (Z.eqb_spec r 0) as [-> | Hne].
  - exists 1%nat. split; [ constructor | lia ].
  - pose proof (Z.rem_bound_abs l r Hne) as Hb.
    destruct (IH (Z.abs_nat (Z.rem l r)) ltac:(lia) r (Z.rem l r) eq_refl)
      as [n [Hc Hn]].
    exists (S n). split; [ constructor; assumption | lia ].
Qed.

Lemma getGcd_calls_det (lhs rhs g g' : Z) (n n' : nat) :
  getGcd_calls lhs rhs g n -> getGcd_calls lhs rhs g' n' -> g = g' /\ n = n'.
Proof.
  intros H. revert g' n'.
  induction H as [l | l r g n Hne H IH]; intros g' n' H'.
  - inversion H'; subst; [ split; reflexivity | congruence ].
  - inversion H' as [ | ? ? ? m ? Hrec]; subst; [ congruence | ].
    destruct (IH _ _ Hrec) as [-> ->]. split; reflexivity.
Qed.

(** ** [getDivisors] *)

Lemma getDivisors_loop_eq (i half : Z) (divs : list Z) :
  getDivisors_loop i half divs =
  if i <=? half then getDivisors_loop (i + 1) half (divs ++ [i]) else divs.
Proof.
  rewrite getDivisors_loop_equation_1.
  destruct (Z_le_dec i half) as [H | H]; simpl;
    destruct (Z.leb_spec i half); try lia; reflexivity.
Qed.

Lemma getDivisors_loop_spec (n : nat) :
  forall i half divs,
    n = Z.to_nat (half + 1 - i) ->
    getDivisors_loop i half divs =
    divs ++ List.map (fun k => i + Z.of_nat k) (seq 0 n).
Proof.
  induction n as [ | n IH]; intros i half divs Hn;
    rewrite getDivisors_loop_eq.
  - destruct (Z.leb_spec i half); [ lia | ].
    simpl. rewrite app_nil_r. reflexivity.
  - destruct (Z.leb_spec i half); [ | lia ].
    rewrite (IH (i + 1) half (divs ++ [i])) by lia.
    rewrite <- app_assoc. f_equal. simpl. f_equal.
    + f_equal. lia.
    + rewrite <- seq_shift, map_map.
      apply map_ext. intros k. lia.
Qed.

Lemma Math_floor_half (value : Z) :
  Math_floor (inject_Z value / 2) = value / 2.
Proof.
  unfold Math_floor. symmetry. exact (Zdiv_Qdiv value 2).
Qed.

Lemma getDivisors_eq (left right : Z) :
  getDivisors left right =
  List.map Z.of_nat (seq 2 (Z.to_nat (Z.min left right / 2 - 1))).
Proof.
  unfold getDivisors.
  replace (if left <? right then left else right) with (Z.min left right)
    by (destruct (Z.ltb_spec left right); lia).
  rewrite Math_floor_half.
  rewrite (getDivisors_loop_spec (Z.to_nat (Z.min left right / 2 - 1)))
    by (f_equal; lia).
  rewrite app_nil_l, <- seq_shift, <- seq_shift, !map_map.
  apply map_ext. intros k. lia.
Qed.

Lemma getDivisors_In (left right i : Z) :
  In i (getDivisors left right) <-> 2 <= i <= Z.min left right / 2.
Proof.
  rewrite getDivisors_eq, in_map_iff. split.
  - intros [k [<- Hk]]. apply in_seq in Hk. lia.
  - intros Hi. exists (Z.to_nat i). split; [ lia | ].
    apply in_seq. lia.
Qed.

Lemma getDivisors_small (left right : Z) :
  Z.min left right < 4 -> getDivisors left right = [].
Proof.
  intros Hlt. rewrite getDivisors_eq.
  assert (H : Z.min left right / 2 < 2)
    by (apply Z.div_lt_upper_bound; lia).
  replace (Z.to_nat (Z.min left right / 2 - 1)) with 0%nat by lia.
  reflexivity.
Qed.

Lemma getDivisors_increasing (left right : Z) :
  StronglySorted Z.lt (getDivisors left right).
Proof.
  rewrite getDivisors_eq.
  generalize (Z.to_nat (Z.min left right / 2 - 1)) as n.
  generalize 2%nat as s.
  intros s n. revert s.
  induction n as [ | n IH]; intros s; simpl; constructor.
  - apply IH.
  - apply Forall_forall. intros x Hx.
    apply in_map_iff in Hx. destruct Hx as [k [<- Hk]].
    apply in_seq in Hk. lia.
Qed.

Lemma getDivisors_length (left right : Z) :
  List.length (getDivisors left right) = Z.to_nat (Z.min left right / 2 - 1).
Proof. rewrite getDivisors_eq, length_map, length_seq. reflexivity. Qed.

(** ** Keys of the [alts] map

    The key ["w:h"] determines the pair [(w, h)]: decimal notation has
    no colon in it and can be read back. *)


Lemma string_of_uint_no_colon (d : Decimal.uint) :
  ~ occurs ":" (NilEmpty.string_of_uint d).
Proof.
  induction d; simpl; [ tauto | .. ];
    intros [H | H]; try discriminate; auto.
Qed.

Lemma Number_toString_no_colon (n : Z) : ~ occurs ":" (Number_toString n).
Proof.
  unfold Number_toString, NilZero.string_of_int, NilZero.string_of_uint.
  destruct (Z.to_int n) as [d | d]; destruct d; simpl;
    intros H; repeat (destruct H as [H | H]; try discriminate);
    try contradiction;
    revert H; apply string_of_uint_no_colon.
Qed.

Lemma to_int_nonnil (n : Z) : Z.to_int n <> Decimal.Pos Decimal.Nil /\ Z.to_int n <> Decimal.Neg Decimal.Nil.
Proof.
  destruct n as [ | p | p]; simpl; split; try discriminate;
    intros [= H]; revert H; apply DecimalPos.Unsigned.to_uint_nonnil.
Qed.

Lemma Number_toString_inj (a b : Z) :
  Number_toString a = Number_toString b -> a = b.
Proof.
  unfold Number_toString. intros H.
  apply DecimalZ.to_int_inj.
  assert (Ha := NilZero.isi (Z.to_int a) (proj1 (to_int_nonnil a)) (proj2 (to_int_nonnil a))).
  assert (Hb := NilZero.isi (Z.to_int b) (proj1 (to_int_nonnil b)) (proj2 (to_int_nonnil b))).
  rewrite H in Ha. congruence.
Qed.

Lemma append_colon_inj (a a' b b' : string) :
  ~ occurs ":" a -> ~ occurs ":" a' ->
  (a ++ ":" ++ b)%string = (a' ++ ":" ++ b')%string ->
  a = a' /\ b = b'.
Proof.
  revert a'. induction a as [ | c a IH]; intros [ | c' a'] Ha Ha' H;
    simpl in *.
  - injection H as H. split; [ reflexivity | assumption ].
  - injection H as Hc _. exfalso. apply Ha'. left. symmetry. assumption.
  - injection H as Hc _. exfalso. apply Ha. left. assumption.
  - injection H as Hc H.
    destruct (IH a') as [-> ->]; try assumption.
    + intros Ho. apply Ha. right. assumption.
    + intros Ho. apply Ha'. right. assumption.
    + subst. split; reflexivity.
Qed.

Lemma idOf_inj (f g : FuzzRatio.t) :
  idOf f = idOf g <->
  FuzzRatio.width f = FuzzRatio.width g /\ FuzzRatio.height f = FuzzRatio.height g.
Proof.
  unfold idOf. split.
  - intros H.
    apply append_colon_inj in H; try apply Number_toString_no_colon.
    destruct H as [Hw Hh].
    split; apply Number_toString_inj; assumption.
  - intros [-> ->]. reflexivity.
Qed.

(** ** Comparisons of numbers *)

Lemma Qltb_true (x y : Q) : Qltb x y = true <-> (x < y)%Q.
Proof.
  unfold Qltb. rewrite negb_true_iff, <- not_true_iff_false, Qle_bool_iff.
  split; [ apply Qnot_le_lt | apply Qlt_not_le ].
Qed.

Lemma Qltb_false (x y : Q) : Qltb x y = false <-> (y <= x)%Q.
Proof.
  unfold Qltb. rewrite negb_false_iff. apply Qle_bool_iff.
Qed.

(** ** The sorted array *)

Section ArraySortFacts.
Context {A : Type} (compareFn : A -> A -> Z).

Lemma Array_sort_insert_In (x a : A) (l : list A) :
  In x (Array_sort_insert compareFn a l) <-> x = a \/ In x l.
Proof.
  induction l as [ | y l IH]; simpl.
  - intuition.
  - destruct (0 <? compareFn a y); simpl; rewrite ?IH; intuition.
Qed.

Lemma Array_sort_In (x : A) (l : list A) :
  In x (Array_sort compareFn l) <-> In x l.
Proof.
  induction l as [ | a l IH]; simpl.
  - reflexivity.
  - rewrite Array_sort_insert_In, IH. intuition.
Qed.

Lemma Array_sort_insert_length (a : A) (l : list A) :
  List.length (Array_sort_insert compareFn a l) = S (List.length l).
Proof.
  induction l as [ | y l IH]; simpl; [ reflexivity | ].
  destruct (0 <? compareFn a y); simpl; rewrite ?IH; reflexivity.
Qed.

Lemma Array_sort_length (l : list A) :
  List.length (Array_sort compareFn l) = List.length l.
Proof.
  induction l as [ | a l IH]; simpl; [ reflexivity | ].
  rewrite Array_sort_insert_length, IH. reflexivity.
Qed.

Lemma Array_sort_nil (l : list A) :
  Array_sort compareFn l = [] <-> l = [].
Proof.
  split; intros H.
  - apply length_zero_iff_nil. rewrite <- Array_sort_length, H. reflexivity.
  - subst. reflexivity.
Qed.
End ArraySortFacts.

Lemma compareSums_pos (left right : AcceptableRatio.t) :
  (0 <? compareSums left right) = true <-> (sumOf right < sumOf left)%Q.
Proof.
  unfold compareSums.
  destruct (Qltb (sumOf right) (sumOf left)) eqn:Hlt.
  - apply Qltb_true in Hlt. split; [ intros _; assumption | reflexivity ].
  - apply Qltb_false in Hlt. split.
    + destruct (Qeq_bool (sumOf left) (sumOf right)); discriminate.
    + intros H. exfalso. apply (Qlt_not_le _ _ H). assumption.
Qed.

(** The sorted array is a rearrangement of the array, in the order of
    the sums. *)
Lemma Array_sort_Permutation {A : Type} (compareFn : A -> A -> Z) (l : list A) :
  Permutation (Array_sort compareFn l) l.
Proof.
  induction l as [ | a l IH]; simpl; [ constructor | ].
  transitivity (a :: Array_sort compareFn l); [ | constructor; assumption ].
  generalize (Array_sort compareFn l) as s. intros s.
  induction s as [ | y s IHs]; simpl; [ reflexivity | ].
  destruct (0 <? compareFn a y); [ | reflexivity ].
  transitivity (y :: a :: s); [ constructor; assumption | constructor ].
Qed.

Lemma sorted_by_sum (options : Options.t) :
  StronglySorted (fun left right => (sumOf left <= sumOf right)%Q) (sorted options).
Proof.
  unfold sorted. generalize (allowedRatios options) as l. intros l.
  induction l as [ | a l IH]; simpl; [ constructor | ].
  revert IH. generalize (Array_sort compareSums l) as s. intros s.
  induction s as [ | y s IHs]; simpl; intros Hs.
  - repeat constructor.
  - inversion Hs as [ | ? ? Hs' Hy]; subst.
    destruct (0 <? compareSums a y) eqn:Hc.
    + apply compareSums_pos in Hc.
      constructor; [ apply IHs; assumption | ].
      apply Forall_forall. intros z Hz.
      apply Array_sort_insert_In in Hz. destruct Hz as [-> | Hz].
      * apply Qlt_le_weak. assumption.
      * rewrite Forall_forall in Hy. apply Hy. assumption.
    + assert (Hle : (sumOf a <= sumOf y)%Q).
      { apply Qnot_lt_le. intros Hlt. apply compareSums_pos in Hlt. congruence. }
      constructor; [ assumption | ].
      constructor; [ assumption | ].
      rewrite Forall_forall in Hy |- *. intros z Hz.
      apply Qle_trans with (sumOf y); [ assumption | apply Hy; assumption ].
Qed.

(** The first element of the sorted array has the least sum. *)
Lemma sorted_least (options : Options.t) (x : AcceptableRatio.t)
    (rest : list AcceptableRatio.t) :
  sorted options = x :: rest ->
  forall y, In y rest -> (sumOf x <= sumOf y)%Q.
Proof.
  intros H. pose proof (sorted_by_sum options) as Hs. rewrite H in Hs.
  inversion Hs as [ | ? ? _ Hx]; subst.
  rewrite Forall_forall in Hx. exact Hx.
Qed.

(** ** Where the candidates come from *)

Lemma ratios_In (options : Options.t) (ratio : AcceptableRatio.t) :
  In ratio (ratios options) <->
  exists div,
    2 <= div <= Z.min (Options.width options) (Options.height options) / 2 /\
    ratio = ratioOf options div.
Proof.
  unfold ratios. rewrite in_map_iff. split.
  - intros [div [<- Hin]]. exists div. split; [ | reflexivity ].
    apply getDivisors_In. assumption.
  - intros [div [Hd ->]]. exists div. split; [ reflexivity | ].
    apply getDivisors_In. assumption.
Qed.

Lemma evaluate_app (options : Options.t) (acc : list AcceptableRatio.t)
    (ratio : AcceptableRatio.t) :
  evaluate options acc ratio = acc ++ evaluate options [] ratio.
Proof.
  unfold evaluate.
  destruct (isExact ratio), (withinTolerance options (reducedError ratio));
    simpl; rewrite <- ?app_assoc, ?app_nil_r; reflexivity.
Qed.

Lemma fold_evaluate (options : Options.t) (l acc : list AcceptableRatio.t) :
  fold_left (evaluate options) l acc =
  acc ++ flat_map (evaluate options []) l.
Proof.
  revert acc. induction l as [ | r l IH]; intros acc; simpl.
  - rewrite app_nil_r. reflexivity.
  - rewrite IH, (evaluate_app options acc r), app_assoc. reflexivity.
Qed.

Lemma evaluate_In (options : Options.t) (ratio c : AcceptableRatio.t) :
  In c (evaluate options [] ratio) <->
  (c = ratio /\ isExact ratio = true) \/
  (c = withError ratio (reducedError ratio) /\
   withinTolerance options (reducedError ratio) = true).
Proof.
  unfold evaluate.
  destruct (isExact ratio), (withinTolerance options (reducedError ratio));
    simpl; intuition (try discriminate; auto).
Qed.

Lemma acceptableRatios_In (options : Options.t) (c : AcceptableRatio.t) :
  In c (acceptableRatios options) <->
  exists ratio,
    In ratio (ratios options) /\
    ((c = ratio /\ isExact ratio = true) \/
     (c = withError ratio (reducedError ratio) /\
      withinTolerance options (reducedError ratio) = true)).
Proof.
  unfold acceptableRatios. rewrite fold_evaluate, app_nil_l, in_flat_map.
  split; intros [ratio [Hin H]]; exists ratio; split; try assumption;
    apply evaluate_In; assumption.
Qed.

(** A candidate that carries an error was pushed by the tolerance test. *)
Lemma acceptableRatios_error (options : Options.t) (c : AcceptableRatio.t)
    (e : Error.t) :
  In c (acceptableRatios options) ->
  AcceptableRatio.error c = Some e ->
  exists ratio,
    In ratio (ratios options) /\
    c = withError ratio e /\ e = reducedError ratio /\
    withinTolerance options e = true.
Proof.
  intros Hin He. apply acceptableRatios_In in Hin.
  destruct Hin as [ratio [Hr [[-> _] | [-> Htol]]]].
  - apply ratios_In in Hr. destruct Hr as [div [_ ->]]. discriminate.
  - simpl in He. injection He as <-. exists ratio. auto.
Qed.

Lemma sorted_In (options : Options.t) (c : AcceptableRatio.t) :
  In c (sorted options) <->
  In c (acceptableRatios options) /\ isAllowed options c = true.
Proof.
  unfold sorted, allowedRatios. rewrite Array_sort_In, filter_In. reflexivity.
Qed.

Lemma sorted_nil (options : Options.t) :
  sorted options = [] <-> allowedRatios options = [].
Proof. apply Array_sort_nil. Qed.

(** ** The [alts] map *)

Section JsMapFacts.
Context {V : Type}.
Implicit Types (m : @Map V) (id k : string) (v w : V).

Lemma Map_get_In id v m : Map_get id m = Some v -> In (id, v) m.
Proof.
  induction m as [ | [k w] m IH]; simpl; [ discriminate | ].
  destruct (String.eqb_spec k id) as [-> | Hne].
  - intros [= ->]. left. reflexivity.
  - intros H. right. apply IH. assumption.
Qed.

Lemma Map_get_None id m : Map_get id m = None -> ~ In id (List.map fst m).
Proof.
  induction m as [ | [k w] m IH]; simpl; [ tauto | ].
  destruct (String.eqb_spec k id) as [-> | Hne]; [ discriminate | ].
  intros H [Hk | Hin]; [ contradiction | ]. apply IH; assumption.
Qed.

Lemma In_Map_get id v m :
  NoDup (List.map fst m) -> In (id, v) m -> Map_get id m = Some v.
Proof.
  induction m as [ | [k w] m IH]; simpl; [ tauto | ].
  intros Hnd Hin. inversion Hnd as [ | ? ? Hk Hnd']; subst.
  destruct (String.eqb_spec k id) as [-> | Hne].
  - destruct Hin as [[= ->] | Hin]; [ reflexivity | ].
    exfalso. apply Hk. apply (in_map fst) in Hin. assumption.
  - destruct Hin as [[= -> _] | Hin]; [ contradiction | ].
    apply IH; assumption.
Qed.

Lemma Map_set_keys id v m :
  List.map fst (Map_set id v m) =
  match Map_get id m with
  | Some _ => List.map fst m
  | None => List.map fst m ++ [id]
  end.
Proof.
  induction m as [ | [k w] m IH]; simpl; [ reflexivity | ].
  destruct (String.eqb_spec k id) as [-> | Hne]; simpl; [ reflexivity | ].
  rewrite IH. destruct (Map_get id m); reflexivity.
Qed.

Lemma Map_set_NoDup id v m :
  NoDup (List.map fst m) -> NoDup (List.map fst (Map_set id v m)).
Proof.
  intros Hnd. rewrite Map_set_keys.
  destruct (Map_get id m) eqn:E; [ assumption | ].
  apply Map_get_None in E.
  apply NoDup_app; [ assumption | repeat constructor; simpl; tauto | ].
  intros x Hx [<- | []]. apply E. assumption.
Qed.

Lemma Map_set_In id v m k w :
  In (k, w) (Map_set id v m) -> (k = id /\ w = v) \/ In (k, w) m.
Proof.
  induction m as [ | [k' w'] m IH]; simpl.
  - intros [[= <- <-] | []]. left. split; reflexivity.
  - destruct (String.eqb_spec k' id) as [-> | Hne]; simpl.
    + intros [[= <- <-] | Hin]; [ left; split; reflexivity | right; right; assumption ].
    + intros [Heq | Hin]; [ right; left; assumption | ].
      destruct (IH Hin) as [H | H]; [ left; assumption | right; right; assumption ].
Qed.

Lemma Map_get_set_same id v m : Map_get id (Map_set id v m) = Some v.
Proof.
  induction m as [ | [k w] m IH]; simpl.
  - rewrite String.eqb_refl. reflexivity.
  - destruct (String.eqb_spec k id) as [-> | Hne]; simpl.
    + rewrite String.eqb_refl. reflexivity.
    + destruct (String.eqb_spec k id); [ contradiction | assumption ].
Qed.

Lemma Map_get_set_other id id' v m :
  id <> id' -> Map_get id' (Map_set id v m) = Map_get id' m.
Proof.
  intros Hne. induction m as [ | [k w] m IH]; simpl.
  - destruct (String.eqb_spec id id'); [ contradiction | reflexivity ].
  - destruct (String.eqb_spec k id) as [-> | Hk]; simpl.
    + destruct (String.eqb_spec id id'); [ contradiction | reflexivity ].
    + rewrite IH. reflexivity.
Qed.
End JsMapFacts.


Lemma alts_inv_nil : alts_inv [] [].
Proof.
  split; simpl.
  - constructor.
  - intros k v [].
  - intros c e [].
Qed.

Lemma collectAlt_inv (seen : list AcceptableRatio.t) (alts : Map)
    (ratio : AcceptableRatio.t) :
  alts_inv seen alts -> alts_inv (seen ++ [ratio]) (collectAlt alts ratio).
Proof.
  intros [Hk He Hb]. unfold collectAlt.
  destruct (AcceptableRatio.error ratio) as [error | ] eqn:Herr.
  - set (fuzzed := toFuzzed ratio error).
    assert (Hnew : exists c e, In c (seen ++ [ratio]) /\
              AcceptableRatio.error c = Some e /\ fuzzed = toFuzzed c e).
    { exists ratio, error. split; [ apply in_or_app; right; left; reflexivity | ].
      split; [ assumption | reflexivity ]. }
    assert (Hold : forall k v, In (k, v) alts ->
              k = idOf v /\
              exists c e, In c (seen ++ [ratio]) /\
                AcceptableRatio.error c = Some e /\ v = toFuzzed c e).
    { intros k v Hin. destruct (He k v Hin) as [Hkv [c [e [Hc H]]]].
      split; [ assumption | ]. exists c, e.
      split; [ apply in_or_app; left; assumption | assumption ]. }
    assert (Hset : forall k v, In (k, v) (Map_set (idOf fuzzed) fuzzed alts) ->
              k = idOf v /\
              exists c e, In c (seen ++ [ratio]) /\
                AcceptableRatio.error c = Some e /\ v = toFuzzed c e).
    { intros k v Hin. apply Map_set_In in Hin.
      destruct Hin as [[-> ->] | Hin]; [ split; [ reflexivity | assumption ] | ].
      apply Hold. assumption. }
    destruct (Map_get (idOf fuzzed) alts) as [existing | ] eqn:Hget.
    + change (ErrorRatio.percent (Error.width error)
              + ErrorRatio.percent (Error.height error))%Q
        with (percentSum fuzzed).
      destruct (Qltb (percentSum fuzzed) (percentSum existing)) eqn:Hlt.
      * apply Qltb_true in Hlt.
        split; [ apply Map_set_NoDup; assumption | assumption | ].
        intros c e Hc Hce. apply in_app_or in Hc.
        destruct Hc as [Hc | [<- | []]].
        -- destruct (Hb c e Hc Hce) as [v [Hv Hle]].
           destruct (string_dec (idOf fuzzed) (idOf (toFuzzed c e))) as [E | E].
           ++ rewrite <- E in *. rewrite Map_get_set_same.
              exists fuzzed. split; [ reflexivity | ].
              assert (v = existing) by congruence. subst v.
              apply Qle_trans with (percentSum existing);
                [ apply Qlt_le_weak | ]; assumption.
           ++ rewrite Map_get_set_other by assumption.
              exists v. split; assumption.
        -- assert (e = error) by congruence. subst e.
           fold fuzzed. rewrite Map_get_set_same.
           exists fuzzed. split; [ reflexivity | apply Qle_refl ].
      * apply Qltb_false in Hlt.
        split; [ assumption | assumption | ].
        intros c e Hc Hce. apply in_app_or in Hc.
        destruct Hc as [Hc | [<- | []]].
        -- apply Hb; assumption.
        -- assert (e = error) by congruence. subst e.
           fold fuzzed. exists existing. split; assumption.
    + split; [ apply Map_set_NoDup; assumption | assumption | ].
      intros c e Hc Hce. apply in_app_or in Hc.
      destruct Hc as [Hc | [<- | []]].
      * destruct (Hb c e Hc Hce) as [v [Hv Hle]].
        rewrite Map_get_set_other by congruence.
        exists v. split; assumption.
      * assert (e = error) by congruence. subst e.
        fold fuzzed. rewrite Map_get_set_same.
        exists fuzzed. split; [ reflexivity | apply Qle_refl ].
  - split; [ assumption | | ].
    + intros k v Hin. destruct (He k v Hin) as [Hkv [c [e [Hc H]]]].
      split; [ assumption | ]. exists c, e.
      split; [ apply in_or_app; left; assumption | assumption ].
    + intros c e Hc Hce. apply in_app_or in Hc.
      destruct Hc as [Hc | [<- | []]]; [ apply Hb; assumption | congruence ].
Qed.

Lemma fold_collectAlt_inv (rest seen : list AcceptableRatio.t) (alts : Map) :
  alts_inv seen alts ->
  alts_inv (seen ++ rest) (fold_left collectAlt rest alts).
Proof.
  revert seen alts. induction rest as [ | r rest IH]; intros seen alts H; simpl.
  - rewrite app_nil_r. assumption.
  - replace (seen ++ r :: rest) with ((seen ++ [r]) ++ rest)
      by (rewrite <- app_assoc; reflexivity).
    apply IH. apply collectAlt_inv. assumption.
Qed.

Lemma alts_of_rest (rest : list AcceptableRatio.t) :
  alts_inv rest (fold_left collectAlt rest []).
Proof. apply (fold_collectAlt_inv rest [] []). apply alts_inv_nil. Qed.

(** ** [getError] on the candidates *)

Lemma Qabs_inject_Z (z : Z) : Qabs (inject_Z z) = inject_Z (Z.abs z).
Proof. reflexivity. Qed.

Lemma inject_Z_nonzero (z : Z) : z <> 0 -> ~ (inject_Z z == 0)%Q.
Proof.
  intros Hz E. apply Hz. apply (proj1 (inject_Z_injective z 0)). exact E.
Qed.


Lemma getError_ratio (value : Q) (divisor : Z) :
  divisor <> 0 -> ErrorRatio.ratio (getError value divisor) = Math_floor value.
Proof. intros Hd. simpl. apply Z.div_mul. assumption. Qed.

(** [mod / divisor] divides a multiple of [divisor]. *)
Lemma getError_mod_multiple (value : Q) (divisor : Z) :
  divisor <> 0 ->
  ErrorRatio.mod_ (getError value divisor) =
  ErrorRatio.ratio (getError value divisor) * divisor.
Proof. intros Hd. rewrite getError_ratio by assumption. reflexivity. Qed.

Lemma Math_floor_quotient (n div : Z) :
  Math_floor (inject_Z n / inject_Z div) = n / div.
Proof. unfold Math_floor. symmetry. apply Zdiv_Qdiv. Qed.

Lemma quotient_ge_2 (n m div : Z) :
  2 <= div <= m / 2 -> m <= n -> 2 <= n / div.
Proof.
  intros Hd Hm. apply Z.div_le_lower_bound; [ lia | ].
  assert (2 * (m / 2) <= m) by (apply Z.mul_div_le; lia).
  nia.
Qed.

Section Candidate.
Variables (options : Options.t) (div : Z).
Hypothesis Hdiv :
  2 <= div <= Z.min (Options.width options) (Options.height options) / 2.

Lemma candidate_ratios :
  let ew := getError (AcceptableRatio.width (ratioOf options div)) div in
  let eh := getError (AcceptableRatio.height (ratioOf options div)) div in
  ErrorRatio.ratio ew = Options.width options / div /\
  ErrorRatio.ratio eh = Options.height options / div /\
  2 <= ErrorRatio.ratio ew /\ 2 <= ErrorRatio.ratio eh.
Proof.
  intros ew eh. unfold ew, eh.
  rewrite !getError_ratio by lia.
  unfold ratioOf; cbn [AcceptableRatio.width AcceptableRatio.height].
  rewrite !Math_floor_quotient.
  repeat split; try reflexivity;
    apply (quotient_ge_2 _ _ _ Hdiv); lia.
Qed.

Lemma candidate_dimensions :
  4 <= Options.width options /\ 4 <= Options.height options.
Proof.
  assert (H : 2 * (Z.min (Options.width options) (Options.height options) / 2)
              <= Z.min (Options.width options) (Options.height options))
    by (apply Z.mul_div_le; lia).
  lia.
Qed.

(** [original] is the dimension itself, so the division by it in
    [percent] is a division by a positive number. *)
Lemma candidate_original (n : Z) :
  (inject_Z n / inject_Z div * inject_Z div == inject_Z n)%Q.
Proof. field. apply inject_Z_nonzero. lia. Qed.

(** The comparison of [getError] keeps [mod]: the range of a candidate is
    the remainder of the dimension by the divisor. *)
Lemma candidate_range (n : Z) :
  0 <= n ->
  (ErrorRatio.range (getError (inject_Z n / inject_Z div) div)
   == inject_Z (n mod div))%Q.
Proof.
  intros Hn. unfold getError. cbn [ErrorRatio.range].
  rewrite Math_floor_quotient, Z.div_mul by lia.
  assert (Hq : 0 <= n / div) by (apply Z.div_pos; lia).
  assert (Hm : n = div * (n / div) + n mod div) by (apply Z.div_mod; lia).
  assert (Hr : 0 <= n mod div < div) by (apply Z.mod_pos_bound; lia).
  assert (Horig : (inject_Z n / inject_Z div * inject_Z div == inject_Z n)%Q)
    by apply candidate_original.
  assert (Hkeep :
    Qltb (Math_abs (inject_Z (n / div * div) - inject_Z (n / div)
                    - inject_Z n / inject_Z div * inject_Z div))
         (Math_abs (inject_Z (n / div * div)
                    - inject_Z n / inject_Z div * inject_Z div)) = false).
  { apply Qltb_false. unfold Math_abs. rewrite Horig.
    unfold Qminus. rewrite <- !inject_Z_opp, <- !inject_Z_plus.
    rewrite !Qabs_inject_Z. rewrite <- Zle_Qle. lia. }
  rewrite Hkeep. unfold Math_abs. rewrite Horig.
  unfold Qminus. rewrite <- inject_Z_opp, <- inject_Z_plus, Qabs_inject_Z.
  apply inject_Z_injective. lia.
Qed.

(** [nextGcd] is positive and divides both ratios, so the two divisions
    by it are exact. *)
Lemma candidate_nextGcd :
  let ew := getError (AcceptableRatio.width (ratioOf options div)) div in
  let eh := getError (AcceptableRatio.height (ratioOf options div)) div in
  let nextGcd := getGcd (ErrorRatio.ratio ew) (ErrorRatio.ratio eh) in
  0 < nextGcd /\ (nextGcd | ErrorRatio.ratio ew) /\ (nextGcd | ErrorRatio.ratio eh).
Proof.
  intros ew eh nextGcd.
  destruct candidate_ratios as [_ [_ [Hw Hh]]]. fold ew eh in Hw, Hh.
  split; [ apply getGcd_pos; lia | apply getGcd_divides; lia ].
Qed.

Lemma candidate_coprime :
  let error := reducedError (ratioOf options div) in
  Z.gcd (ErrorRatio.ratio (Error.width error))
        (ErrorRatio.ratio (Error.height error)) = 1.
Proof.
  intros error. unfold error, reducedError. cbn [Error.width Error.height ErrorRatio.ratio].
  destruct candidate_ratios as [_ [_ [Hw Hh]]].
  change (AcceptableRatio.div (ratioOf options div)) with div.
  set (qw := ErrorRatio.ratio (getError (AcceptableRatio.width (ratioOf options div)) div)) in *.
  set (qh := ErrorRatio.ratio (getError (AcceptableRatio.height (ratioOf options div)) div)) in *.
  rewrite getGcd_gcd by lia.
  apply Z.gcd_div_gcd; [ | reflexivity ].
  intros E. apply Z.gcd_eq_0_l in E. lia.
Qed.
End Candidate.

(** ** The shape of the result *)

Lemma fuzzRatio_ratio (options : Options.t) :
  Result.ratio (fuzzRatio options) = unfuzzed options.
Proof. unfold fuzzRatio. destruct (sorted options); reflexivity. Qed.

Lemma fuzzRatio_fuzzed (options : Options.t) :
  Result.fuzzed (fuzzRatio options) =
  match sorted options with
  | [] => None
  | first :: _ => option_map (toFuzzed first) (AcceptableRatio.error first)
  end.
Proof.
  unfold fuzzRatio. destruct (sorted options) as [ | first rest]; simpl.
  - reflexivity.
  - destruct (AcceptableRatio.error first); reflexivity.
Qed.

Lemma fuzzRatio_alts (options : Options.t) :
  Result.alts (fuzzRatio options) =
  match sorted options with
  | [] => None
  | _ :: rest => Some (Map_values (fold_left collectAlt rest []))
  end.
Proof. unfold fuzzRatio. destruct (sorted options); reflexivity. Qed.

Lemma alts_origin (options : Options.t) (alts : list FuzzRatio.t) (fuzzed : FuzzRatio.t) :
  Result.alts (fuzzRatio options) = Some alts ->
  In fuzzed alts ->
  exists c e,
    In c (tl (sorted options)) /\
    AcceptableRatio.error c = Some e /\ fuzzed = toFuzzed c e.
Proof.
  rewrite fuzzRatio_alts.
  destruct (sorted options) as [ | first rest]; [ discriminate | ].
  intros [= <-] Hin. unfold Map_values in Hin.
  apply in_map_iff in Hin. destruct Hin as [[k v] [Hv Hin]]. simpl in Hv. subst v.
  destruct (inv_entries _ _ (alts_of_rest rest) k fuzzed Hin) as [_ H].
  exact H.
Qed.

(** Every candidate shown is the [FuzzRatio] of an error-bearing entry of
    the sorted array. *)
Lemma surfaced_origin (options : Options.t) (fuzzed : FuzzRatio.t) :
  surfaced (fuzzRatio options) fuzzed ->
  exists c e,
    In c (sorted options) /\
    AcceptableRatio.error c = Some e /\ fuzzed = toFuzzed c e.
Proof.
  intros [Hf | [alts [Ha Hin]]].
  - rewrite fuzzRatio_fuzzed in Hf.
    destruct (sorted options) as [ | first rest]; [ discriminate | ].
    destruct (AcceptableRatio.error first) as [e | ] eqn:He; [ | discriminate ].
    injection Hf as <-. exists first, e.
    split; [ left; reflexivity | split; [ assumption | reflexivity ] ].
  - destruct (alts_origin options alts fuzzed Ha Hin) as [c [e [Hc H]]].
    exists c, e. split; [ | assumption ].
    destruct (sorted options); [ destruct Hc | right; assumption ].
Qed.

(** The same, traced back to the divisor. *)
Lemma surfaced_candidate (options : Options.t) (fuzzed : FuzzRatio.t) :
  surfaced (fuzzRatio options) fuzzed ->
  exists ratio,
    In ratio (ratios options) /\
    withinTolerance options (reducedError ratio) = true /\
    isAllowed options (withError ratio (reducedError ratio)) = true /\
    fuzzed = toFuzzed (withError ratio (reducedError ratio)) (reducedError ratio).
Proof.
  intros H. apply surfaced_origin in H. destruct H as [c [e [Hc [He ->]]]].
  apply sorted_In in Hc. destruct Hc as [Hc Hallowed].
  destruct (acceptableRatios_error options c e Hc He) as [ratio [Hr [-> [-> Htol]]]].
  exists ratio. auto.
Qed.

(** * The claims *)

Lemma Qdiv_exact (a b : Z) :
  b <> 0 -> (b | a) -> (inject_Z a / inject_Z b == inject_Z (a / b))%Q.
Proof.
  intros Hb [k ->]. rewrite Z.div_mul by assumption.
  rewrite inject_Z_mult. field.
  apply inject_Z_nonzero. assumption.
Qed.

(** C2. For positive integers [w] and [h], the [ratio] of the result is
    the reduction of the true dimensions by their greatest common divisor:
    its two components are integers [a] and [b] (the quotients of [w] and
    [h] by their gcd) with [gcd a b = 1] and [a / b = w / h] as exact
    rationals; it is computed from [width] and [height] alone, by
    [unfuzzed], whatever the candidates are. *)
Theorem C2_ratio_is_gcd_reduction (options : Options.t) :
  0 < Options.width options ->
  0 < Options.height options ->
  Result.ratio (fuzzRatio options) = unfuzzed options /\
  is_gcd_reduction (Options.width options) (Options.height options)
                   (Result.ratio (fuzzRatio options)).
Proof.
  intros Hw Hh.
  rewrite fuzzRatio_ratio. split; [ reflexivity | ].
  set (w := Options.width options) in *.
  set (h := Options.height options) in *.
  unfold is_gcd_reduction, unfuzzed. fold w h. cbn [Ratio.width Ratio.height].
  rewrite getGcd_gcd by lia.
  set (g := Z.gcd w h).
  assert (Hg : 0 < g).
  { pose proof (Z.gcd_nonneg w h) as Hn.
    destruct (Z.eq_dec g 0) as [E | E]; [ | unfold g; lia ].
    apply Z.gcd_eq_0_l in E. lia. }
  destruct (Z.gcd_divide_l w h) as [a Ha].
  destruct (Z.gcd_divide_r w h) as [b Hb].
  fold g in Ha, Hb.
  assert (Hqa : w / g = a) by (rewrite Ha; apply Z.div_mul; lia).
  assert (Hqb : h / g = b) by (rewrite Hb; apply Z.div_mul; lia).
  assert (Hwq : (inject_Z w / inject_Z g == inject_Z a)%Q).
  { rewrite <- Hqa. apply Qdiv_exact; [ lia | apply Z.gcd_divide_l ]. }
  assert (Hhq : (inject_Z h / inject_Z g == inject_Z b)%Q).
  { rewrite <- Hqb. apply Qdiv_exact; [ lia | apply Z.gcd_divide_r ]. }
  assert (Hapos : 0 < a) by nia.
  assert (Hbpos : 0 < b) by nia.
  exists a, b. rewrite Hqa, Hqb.
  repeat split; try assumption; try reflexivity.
  - rewrite <- Hqa, <- Hqb. apply Z.gcd_div_gcd; [ lia | reflexivity ].
  - rewrite Ha, Hb. ring.
  - rewrite Hwq, Hhq, Ha, Hb, !inject_Z_mult. field.
    split; apply inject_Z_nonzero; lia.
Qed.

Lemma C2_witness :
  0 < 796 /\ 0 < 1134 /\
  Result.ratio (fuzzRatio (Options.mk 796 1134 Fuzz.range 2 None)) =
  unfuzzed (Options.mk 796 1134 Fuzz.range 2 None) /\
  is_gcd_reduction 796 1134
    (Result.ratio (fuzzRatio (Options.mk 796 1134 Fuzz.range 2 None))).
Proof.
  split; [ lia | split; [ lia | ] ].
  apply (C2_ratio_is_gcd_reduction (Options.mk 796 1134 Fuzz.range 2 None));
    simpl; lia.
Defined.

(** C9. The [ratio] of the result depends on [width] and [height] only:
    two calls that agree on them return the same [ratio], whatever their
    [type], [tolerance] and [allowedRatios] are. *)
Theorem C9_ratio_depends_on_dimensions_only (options options' : Options.t) :
  Options.width options = Options.width options' ->
  Options.height options = Options.height options' ->
  Result.ratio (fuzzRatio options) = Result.ratio (fuzzRatio options').
Proof.
  intros Hw Hh. rewrite !fuzzRatio_ratio. unfold unfuzzed.
  rewrite Hw, Hh. reflexivity.
Qed.

Lemma C9_witness :
  Result.ratio (fuzzRatio (Options.mk 17 9 Fuzz.percent 20 None)) =
  Result.ratio
    (fuzzRatio (Options.mk 17 9 Fuzz.range (1 # 2)
                  (Some [Ratio.mk 2 1; Ratio.mk 16 9]))).
Proof.
  apply C9_ratio_depends_on_dimensions_only; reflexivity.
Defined.

(** C3. Every [FuzzRatio] of the result, [fuzzed] or an entry of [alts],
    is within the tolerance: for the type "percent" both percentages are
    at most [tolerance], for the type "range" both [diff]s are. *)
Theorem C3_tolerance_respected (options : Options.t) (fuzzed : FuzzRatio.t) :
  surfaced (fuzzRatio options) fuzzed ->
  respectsTolerance options fuzzed.
Proof.
  intros H. apply surfaced_candidate in H.
  destruct H as [ratio [_ [Htol [_ ->]]]].
  unfold withinTolerance in Htol. unfold respectsTolerance.
  cbn [toFuzzed FuzzRatio.error FuzzError.width FuzzError.height
       RatioError.percent RatioError.diff].
  destruct (Options.type options);
    apply andb_true_iff in Htol; destruct Htol as [H1 H2];
    apply Qle_bool_iff in H1; apply Qle_bool_iff in H2;
    split; assumption.
Qed.

(** C4. Every [FuzzRatio] of the result has a coprime pair
    [(width, height)]: the two floor ratios divided by their common
    [nextGcd]. Positivity of the input is not assumed: candidates only
    exist when both dimensions are at least 4. *)
Theorem C4_fuzzed_pairs_coprime (options : Options.t) (fuzzed : FuzzRatio.t) :
  surfaced (fuzzRatio options) fuzzed ->
  Z.gcd (FuzzRatio.width fuzzed) (FuzzRatio.height fuzzed) = 1.
Proof.
  intros H. apply surfaced_candidate in H.
  destruct H as [ratio [Hr [_ [_ ->]]]].
  apply ratios_In in Hr. destruct Hr as [div [Hdiv ->]].
  cbn [toFuzzed FuzzRatio.width FuzzRatio.height].
  apply (candidate_coprime options div Hdiv).
Qed.

(** C6. When [allowedRatios] is supplied, every [FuzzRatio] of the result
    is the [FuzzRatio] of an accepted, error-bearing candidate whose
    effective pair (its re-reduced error ratios, which are the [width] and
    [height] shown) is an entry of [allowedRatios], unless the divisor of
    the candidate is 1. *)
Theorem C6_allow_list_enforced (options : Options.t)
    (allowedList : list Ratio.t) (fuzzed : FuzzRatio.t) :
  Options.allowedRatios options = Some allowedList ->
  surfaced (fuzzRatio options) fuzzed ->
  exists c e,
    In c (acceptableRatios options) /\
    AcceptableRatio.error c = Some e /\
    fuzzed = toFuzzed c e /\
    effectiveWidth c = inject_Z (FuzzRatio.width fuzzed) /\
    effectiveHeight c = inject_Z (FuzzRatio.height fuzzed) /\
    onAllowList allowedList c.
Proof.
  intros Hlist H. apply surfaced_origin in H.
  destruct H as [c [e [Hc [He ->]]]].
  apply sorted_In in Hc. destruct Hc as [Hc Hallowed].
  exists c, e. repeat split; try assumption.
  - unfold effectiveWidth. rewrite He. reflexivity.
  - unfold effectiveHeight. rewrite He. reflexivity.
  - unfold isAllowed in Hallowed. rewrite Hlist in Hallowed.
    apply orb_true_iff in Hallowed. destruct Hallowed as [Hdiv | Hex].
    + left. apply Z.eqb_eq. assumption.
    + right. apply existsb_exists in Hex.
      destruct Hex as [allowed [Hin Heq]].
      apply andb_true_iff in Heq. destruct Heq as [Hw Hh].
      apply Qeq_bool_iff in Hw. apply Qeq_bool_iff in Hh.
      exists allowed. repeat split; assumption.
Qed.

Lemma C3_witness :
  surfaced (fuzzRatio sample_options) sample_fuzzed /\
  respectsTolerance sample_options sample_fuzzed.
Proof.
  assert (H : surfaced (fuzzRatio sample_options) sample_fuzzed)
    by (left; vm_compute; reflexivity).
  split; [ exact H | ].
  apply (C3_tolerance_respected sample_options sample_fuzzed H).
Defined.

Lemma C4_witness :
  surfaced (fuzzRatio sample_options) sample_fuzzed /\
  Z.gcd (FuzzRatio.width sample_fuzzed) (FuzzRatio.height sample_fuzzed) = 1.
Proof.
  assert (H : surfaced (fuzzRatio sample_options) sample_fuzzed)
    by (left; vm_compute; reflexivity).
  split; [ exact H | ].
  apply (C4_fuzzed_pairs_coprime sample_options sample_fuzzed H).
Defined.

Lemma C6_witness :
  Options.allowedRatios sample_allowed = Some [Ratio.mk 2 1; Ratio.mk 16 9] /\
  surfaced (fuzzRatio sample_allowed) sample_fuzzed /\
  exists c e,
    In c (acceptableRatios sample_allowed) /\
    AcceptableRatio.error c = Some e /\
    sample_fuzzed = toFuzzed c e /\
    effectiveWidth c = inject_Z (FuzzRatio.width sample_fuzzed) /\
    effectiveHeight c = inject_Z (FuzzRatio.height sample_fuzzed) /\
    onAllowList [Ratio.mk 2 1; Ratio.mk 16 9] c.
Proof.
  assert (H : surfaced (fuzzRatio sample_allowed) sample_fuzzed)
    by (left; vm_compute; reflexivity).
  split; [ reflexivity | split; [ exact H | ] ].
  apply (C6_allow_list_enforced sample_allowed _ sample_fuzzed eq_refl H).
Defined.

Lemma NoDup_map_transfer {A B C : Type} (f : A -> B) (g : A -> C) (l : list A) :
  (forall x y, g x = g y -> f x = f y) ->
  NoDup (List.map f l) -> NoDup (List.map g l).
Proof.
  intros Hfg. induction l as [ | a l IH]; simpl; intros Hnd.
  - constructor.
  - inversion Hnd as [ | ? ? Hnotin Hnd']; subst.
    constructor; [ | apply IH; assumption ].
    intros Hin. apply in_map_iff in Hin. destruct Hin as [x [Hx Hin]].
    apply Hnotin. apply in_map_iff. exists x.
    split; [ apply Hfg; assumption | assumption ].
Qed.

Lemma keys_are_ids (m : @Map FuzzRatio.t) :
  (forall k v, In (k, v) m -> k = idOf v) ->
  List.map fst m = List.map idOf (Map_values m).
Proof.
  induction m as [ | [k v] m IH]; simpl; intros H; [ reflexivity | ].
  f_equal.
  - apply H. left. reflexivity.
  - apply IH. intros k' v' Hin. apply H. right. assumption.
Qed.

(** C7. No two entries of [alts] have the same [(width, height)] pair;
    every entry is the [FuzzRatio] of an error-bearing candidate that is
    not the winner; and for every such candidate the entry kept for its
    pair has a combined error [error.width.percent + error.height.percent]
    that is at most the candidate's own, so a discarded duplicate never
    has less error than the entry retained. *)
Theorem C7_alts_deduplicated (options : Options.t) (alts : list FuzzRatio.t) :
  Result.alts (fuzzRatio options) = Some alts ->
  NoDup (List.map pairOf alts) /\
  fromLosers options alts /\
  keepsLeastError options alts.
Proof.
  intros Halts. split; [ | split ].
  - rewrite fuzzRatio_alts in Halts.
    destruct (sorted options) as [ | first rest]; [ discriminate | ].
    injection Halts as <-.
    destruct (alts_of_rest rest) as [Hkeys Hentries _].
    rewrite (keys_are_ids _ (fun k v H => proj1 (Hentries k v H))) in Hkeys.
    revert Hkeys. apply NoDup_map_transfer.
    intros x y Hxy. apply idOf_inj. unfold pairOf in Hxy.
    injection Hxy as Hw Hh. split; assumption.
  - intros fuzzed Hin. apply (alts_origin options alts); assumption.
  - intros c e Hc He.
    rewrite fuzzRatio_alts in Halts.
    destruct (sorted options) as [ | first rest]; [ discriminate | ].
    injection Halts as <-. simpl in Hc.
    destruct (alts_of_rest rest) as [_ Hentries Hbest].
    destruct (Hbest c e Hc He) as [kept [Hget Hle]].
    apply Map_get_In in Hget.
    exists kept. split; [ | split ].
    + unfold Map_values. apply in_map_iff.
      exists (idOf (toFuzzed c e), kept). split; [ reflexivity | assumption ].
    + destruct (Hentries _ _ Hget) as [Hid _].
      symmetry in Hid. apply idOf_inj in Hid. unfold pairOf.
      destruct Hid as [-> ->]. reflexivity.
    + assumption.
Qed.

Lemma C7_witness :
  Result.alts (fuzzRatio sample_options) = Some sample_alts /\
  NoDup (List.map pairOf sample_alts) /\
  fromLosers sample_options sample_alts /\
  keepsLeastError sample_options sample_alts.
Proof.
  assert (H : Result.alts (fuzzRatio sample_options) = Some sample_alts)
    by (vm_compute; reflexivity).
  split; [ exact H | ].
  apply (C7_alts_deduplicated sample_options sample_alts H).
Defined.

(** ** Small inputs *)

Lemma sorted_small (options : Options.t) :
  Z.min (Options.width options) (Options.height options) < 4 ->
  sorted options = [].
Proof.
  intros Hmin. unfold sorted, allowedRatios, acceptableRatios, ratios.
  rewrite getDivisors_small by assumption. reflexivity.
Qed.

(** C5. [getDivisors] returns the integers from 2 to
    [floor (min (width, height) / 2)], each once and in increasing order,
    whether or not they divide the dimensions. When the smaller dimension
    is below 4 the list is empty and the result is [{ ratio }] alone; for
    2 x 2 that is [{ ratio: { width: 1, height: 1 } }]. *)
Theorem C5_getDivisors_range (left right : Z) :
  getDivisors left right =
    List.map Z.of_nat (seq 2 (Z.to_nat (Z.min left right / 2 - 1))) /\
  (forall i, In i (getDivisors left right) <-> 2 <= i <= Z.min left right / 2) /\
  StronglySorted Z.lt (getDivisors left right) /\
  (Z.min left right < 4 ->
   getDivisors left right = [] /\
   forall type tolerance allowed,
     let options := Options.mk left right type tolerance allowed in
     fuzzRatio options =
     {| Result.ratio := unfuzzed options;
        Result.fuzzed := None;
        Result.alts := None |}) /\
  (forall type tolerance allowed,
     let result := fuzzRatio (Options.mk 2 2 type tolerance allowed) in
     (Ratio.width (Result.ratio result) == 1)%Q /\
     (Ratio.height (Result.ratio result) == 1)%Q /\
     Result.fuzzed result = None /\ Result.alts result = None).
Proof.
  split; [ apply getDivisors_eq | ].
  split; [ intros i; apply getDivisors_In | ].
  split; [ apply getDivisors_increasing | ].
  split.
  - intros Hmin. split; [ apply getDivisors_small; assumption | ].
    intros type tolerance allowed options.
    unfold fuzzRatio. rewrite sorted_small by assumption. reflexivity.
  - intros type tolerance allowed result. subst result.
    unfold fuzzRatio. rewrite sorted_small by (simpl; lia).
    cbn [Result.ratio Result.fuzzed Result.alts].
    repeat split; reflexivity.
Qed.

Lemma C5_witness :
  Z.min 3 1000 < 4 /\
  getDivisors 3 1000 = [] /\
  getDivisors 9 16 = [2; 3; 4] /\
  fuzzRatio (Options.mk 3 1000 Fuzz.range 5 None) =
  {| Result.ratio := unfuzzed (Options.mk 3 1000 Fuzz.range 5 None);
     Result.fuzzed := None;
     Result.alts := None |}.
Proof.
  assert (H : Z.min 3 1000 < 4) by (simpl; lia).
  split; [ exact H | ].
  split; [ apply (proj1 (proj1 (proj2 (proj2 (proj2 (C5_getDivisors_range 3 1000)))) H)) | ].
  split; [ apply (proj1 (C5_getDivisors_range 9 16)) | ].
  apply (proj2 (proj1 (proj2 (proj2 (proj2 (C5_getDivisors_range 3 1000)))) H)
           Fuzz.range 5%Q None).
Defined.

(** C8. For 796 x 1134 with the type "range" and the tolerance 2, the
    [ratio] is 398 : 567 and there is a [fuzzed] candidate, 199 : 283,
    whose two [diff]s are at most 2. *)
Theorem C8_scenario_796_1134 :
  let result := fuzzRatio (Options.mk 796 1134 Fuzz.range 2 None) in
  (Ratio.width (Result.ratio result) == 398)%Q /\
  (Ratio.height (Result.ratio result) == 567)%Q /\
  exists fuzzed,
    Result.fuzzed result = Some fuzzed /\
    FuzzRatio.width fuzzed = 199 /\ FuzzRatio.height fuzzed = 283 /\
    (RatioError.diff (FuzzError.width (FuzzRatio.error fuzzed)) <= 2)%Q /\
    (RatioError.diff (FuzzError.height (FuzzRatio.error fuzzed)) <= 2)%Q.
Proof.
  intros result.
  split; [ vm_compute; reflexivity | ].
  split; [ vm_compute; reflexivity | ].
  eexists. split; [ vm_compute; reflexivity | ].
  cbn [FuzzRatio.width FuzzRatio.height FuzzRatio.error FuzzError.width
       FuzzError.height RatioError.diff].
  repeat split; vm_compute; discriminate.
Qed.

(** C10. [fuzzRatio] has no call that fails to return: on non-negative
    integers the call tree of [getGcd] is finite, of depth at most the
    second argument plus one, because the second argument of the inner
    call, a remainder, is smaller; the loop of [getDivisors] makes at
    most [floor (min (width, height) / 2)] turns; and the calls of
    [getGcd] that [fuzzRatio] makes on positive dimensions all return.
    The embedding of [fuzzRatio] itself is a total function. *)
Theorem C10_fuzzRatio_total :
  (forall lhs rhs, 0 <= lhs -> 0 <= rhs ->
     exists n,
       getGcd_calls lhs rhs (getGcd lhs rhs) n /\ (n <= S (Z.to_nat rhs))%nat) /\
  (forall lhs rhs, 0 <= lhs -> 0 < rhs -> 0 <= Z.rem lhs rhs < rhs) /\
  (forall left right,
     (List.length (getDivisors left right) <= Z.to_nat (Z.min left right / 2))%nat) /\
  (forall options,
     0 < Options.width options -> 0 < Options.height options ->
     gcdCallsReturn options /\ exists result, fuzzRatio options = result).
Proof.
  split; [ | split; [ | split ] ].
  - intros l r _ Hr. destruct (getGcd_calls_total l r) as [n [Hc Hn]].
    exists n. split; [ assumption | lia ].
  - intros l r Hl Hr. rewrite Z.rem_mod_nonneg by lia.
    apply Z.mod_pos_bound. assumption.
  - intros l r. rewrite getDivisors_length. lia.
  - intros options _ _. split; [ split | ].
    + destruct (getGcd_calls_total (Options.width options) (Options.height options))
        as [n [Hc _]].
      exists n. assumption.
    + intros ratio _ ew eh.
      destruct (getGcd_calls_total (ErrorRatio.ratio ew) (ErrorRatio.ratio eh))
        as [n [Hc _]].
      exists n. assumption.
    + exists (fuzzRatio options). reflexivity.
Qed.

Lemma C10_witness :
  (exists n, getGcd_calls 796 1134 (getGcd 796 1134) n /\ (n <= S (Z.to_nat 1134))%nat) /\
  0 <= Z.rem 796 1134 < 1134 /\
  gcdCallsReturn sample_options.
Proof.
  split; [ | split ].
  - apply (proj1 C10_fuzzRatio_total 796 1134); lia.
  - apply (proj1 (proj2 C10_fuzzRatio_total) 796 1134); lia.
  - apply (proj2 (proj2 (proj2 C10_fuzzRatio_total)) sample_options);
      simpl; lia.
Defined.

(** ** When [fuzzed] is absent *)

(** For 4 x 6 the divisor 2 gives the exact candidate 2 : 3 and, with no
    error at all, the error-bearing candidate 2 : 3. Their sums are equal,
    the exact one was pushed first and stays first, and [fuzzed] is left
    undefined although two candidates exist; the second one is in [alts]. *)
Lemma C1_counterexample :
  ~ (Result.fuzzed (fuzzRatio four_by_six) = None ->
     acceptableRatios four_by_six = []).
Proof.
  intros H.
  assert (Hnone : Result.fuzzed (fuzzRatio four_by_six) = None)
    by (vm_compute; reflexivity).
  specialize (H Hnone). vm_compute in H. discriminate H.
Qed.

Lemma four_by_six_result :
  List.map AcceptableRatio.div (sorted four_by_six) = [2; 2] /\
  List.map (fun c => match AcceptableRatio.error c with Some _ => true | None => false end)
           (sorted four_by_six) = [false; true] /\
  Result.fuzzed (fuzzRatio four_by_six) = None /\
  option_map (List.map pairOf) (Result.alts (fuzzRatio four_by_six)) = Some [(2, 3)].
Proof. vm_compute. repeat split; reflexivity. Qed.

(** C1, amended. [fuzzed] is absent exactly when the sorted array of
    candidates that pass the tolerance test and the allow-list is empty or
    starts with an exact candidate, one that has no error; the first
    element has the least sum of the array. The result is the bare
    [{ ratio }], with neither [fuzzed] nor [alts], exactly when that array
    is empty, that is when no accepted candidate passes the allow-list. *)
Theorem C1_fuzzed_absent_iff (options : Options.t) :
  (Result.fuzzed (fuzzRatio options) = None <->
   sorted options = [] \/
   exists first rest,
     sorted options = first :: rest /\ AcceptableRatio.error first = None) /\
  (forall first rest,
     sorted options = first :: rest ->
     forall c, In c rest -> (sumOf first <= sumOf c)%Q) /\
  (bare (fuzzRatio options) <-> sorted options = []) /\
  (sorted options = [] <->
   forall c, In c (acceptableRatios options) -> isAllowed options c = false).
Proof.
  split; [ | split; [ | split ] ].
  - rewrite fuzzRatio_fuzzed.
    destruct (sorted options) as [ | first rest].
    + split; [ left | ]; reflexivity.
    + destruct (AcceptableRatio.error first) as [e | ] eqn:He; simpl; split.
      * discriminate.
      * intros [H | [f [r [H Hf]]]]; [ discriminate | ].
        injection H as <- <-. congruence.
      * intros _. right. exists first, rest. split; [ reflexivity | assumption ].
      * reflexivity.
  - apply sorted_least.
  - unfold bare. rewrite fuzzRatio_fuzzed, fuzzRatio_alts.
    destruct (sorted options) as [ | first rest]; split.
    + reflexivity.
    + split; reflexivity.
    + intros [_ H]. discriminate.
    + discriminate.
  - rewrite sorted_nil. unfold allowedRatios.
    generalize (acceptableRatios options) as l.
    induction l as [ | a l IH]; simpl.
    + split; [ intros _ c [] | reflexivity ].
    + destruct (isAllowed options a) eqn:Ha; split.
      * discriminate.
      * intros H. specialize (H a (or_introl eq_refl)). congruence.
      * intros H c [<- | Hc]; [ assumption | ].
        apply (proj1 IH); assumption.
      * intros H. apply IH. intros c Hc. apply H. right. assumption.
Qed.

Lemma C1_witness :
  sorted four_by_six <> [] /\
  Result.fuzzed (fuzzRatio four_by_six) = None /\
  ~ bare (fuzzRatio four_by_six).
Proof.
  assert (H : sorted four_by_six <> []) by (vm_compute; discriminate).
  split; [ exact H | ].
  split.
  - apply (proj1 (C1_fuzzed_absent_iff four_by_six)).
    right. eexists. eexists. split; vm_compute; reflexivity.
  - intros Hb. apply H.
    apply (proj1 (proj1 (proj2 (proj2 (C1_fuzzed_absent_iff four_by_six))))).
    exact Hb.
Defined.


(** * Further properties of the code *)

(** ** [getGcd] on all integers *)

(** X1. For all integers, negative ones included, [getGcd] returns the
    greatest common divisor up to sign: its absolute value is the gcd. *)
Theorem X1_getGcd_abs (lhs rhs : Z) :
  Z.abs (getGcd lhs rhs) = Z.gcd lhs rhs.
Proof.
  remember (Z.abs_nat rhs) as m eqn:Hm. revert lhs rhs Hm.
  induction m as [m IH] using lt_wf_ind. intros l r Hm.
  rewrite getGcd_eq.
  destruct (Z.eqb_spec r 0) as [-> | Hne].
  - rewrite Z.gcd_0_r. reflexivity.
  - pose proof (Z.rem_bound_abs l r Hne) as Hb.
    rewrite (IH (Z.abs_nat (Z.rem l r)) ltac:(lia) r (Z.rem l r) eq_refl).
    rewrite Z.gcd_comm, Z.gcd_rem by assumption. apply Z.gcd_comm.
Qed.

(** ** [round] *)

Lemma round_eq (value : Q) :
  (round value == inject_Z (Qfloor (value * 100 + (1 # 2))) / 100)%Q.
Proof. reflexivity. Qed.

Lemma round_mono (x y : Q) : (x <= y)%Q -> (round x <= round y)%Q.
Proof.
  intros H. rewrite !round_eq.
  apply Qmult_le_compat_r; [ | discriminate ].
  rewrite <- Zle_Qle. apply Qfloor_resp_le. lra.
Qed.

Lemma Qfloor_plus_half (k : Z) : Qfloor (inject_Z k + (1 # 2)) = k.
Proof.
  pose proof (Qfloor_le (inject_Z k + (1 # 2))) as Hle.
  pose proof (Qlt_floor (inject_Z k + (1 # 2))) as Hlt.
  set (f := Qfloor (inject_Z k + (1 # 2))) in *.
  rewrite inject_Z_plus in Hlt. change (inject_Z 1) with 1%Q in Hlt.
  assert (H1 : (inject_Z f < inject_Z (k + 1))%Q)
    by (rewrite inject_Z_plus; change (inject_Z 1) with 1%Q; lra).
  assert (H2 : (inject_Z k < inject_Z (f + 1))%Q)
    by (rewrite inject_Z_plus; change (inject_Z 1) with 1%Q; lra).
  rewrite <- Zlt_Qlt in H1, H2. lia.
Qed.


Lemma round_comp (x y : Q) : (x == y)%Q -> round x = round y.
Proof.
  intros H. unfold round, Math_round.
  assert (E : (x * Math_pow 10 2 + (1 # 2) == y * Math_pow 10 2 + (1 # 2))%Q)
    by (rewrite H; reflexivity).
  rewrite (Qfloor_comp _ _ E). reflexivity.
Qed.


(** ** [getError] on a non-negative value *)



(** ** The errors of a divisor *)

Lemma getError_percent (value : Q) (divisor : Z) :
  ErrorRatio.percent (getError value divisor) =
  round (ErrorRatio.range (getError value divisor)
         / (value * inject_Z divisor) * 100).
Proof. reflexivity. Qed.

Lemma dimension_error (n div : Z) :
  2 <= div -> 2 * div <= n ->
  let error := getError (inject_Z n / inject_Z div) div in
  (ErrorRatio.range error == inject_Z (n mod div))%Q /\
  ErrorRatio.percent error = round (inject_Z (n mod div) / inject_Z n * 100) /\
  (0 <= ErrorRatio.percent error)%Q /\
  (ErrorRatio.percent error <= 50)%Q.
Proof.
  intros Hd Hn error.
  assert (Hdiv : 2 <= div <= Z.min n n / 2).
  { split; [ assumption | ]. rewrite Z.min_id.
    apply Z.div_le_lower_bound; lia. }
  pose proof (candidate_range (Options.mk n n Fuzz.range 0 None) div Hdiv n
                ltac:(lia)) as Hrange.
  fold error in Hrange.
  assert (Horig : (inject_Z n / inject_Z div * inject_Z div == inject_Z n)%Q)
    by (field; apply inject_Z_nonzero; lia).
  assert (Hpercent :
    ErrorRatio.percent error = round (inject_Z (n mod div) / inject_Z n * 100)).
  { unfold error. rewrite getError_percent. apply round_comp.
    fold error. rewrite Hrange, Horig. reflexivity. }
  pose proof (Z.mod_pos_bound n div ltac:(lia)) as Hr.
  assert (Hn0 : (0 < inject_Z n)%Q)
    by (change 0%Q with (inject_Z 0); rewrite <- Zlt_Qlt; lia).
  assert (Hlow : (0 <= inject_Z (n mod div) / inject_Z n)%Q).
  { apply Qle_shift_div_l; [ assumption | ].
    rewrite Qmult_0_l. change 0%Q with (inject_Z 0). rewrite <- Zle_Qle. lia. }
  assert (Hhigh : (inject_Z (n mod div) / inject_Z n <= 1 # 2)%Q).
  { apply Qle_shift_div_r; [ assumption | ].
    assert (H2 : (inject_Z (2 * (n mod div)) <= inject_Z n)%Q)
      by (rewrite <- Zle_Qle; lia).
    rewrite inject_Z_mult in H2. change (inject_Z 2) with 2%Q in H2. lra. }
  split; [ exact Hrange | ]. split; [ exact Hpercent | ].
  rewrite Hpercent. split.
  - apply Qle_trans with (round 0); [ vm_compute; discriminate | ].
    apply round_mono. lra.
  - apply Qle_trans with (round 50); [ | vm_compute; discriminate ].
    apply round_mono. lra.
Qed.

Lemma errors_of_a_divisor (options : Options.t) (ratio : AcceptableRatio.t) :
  In ratio (ratios options) ->
  let w := Options.width options in
  let h := Options.height options in
  let div := AcceptableRatio.div ratio in
  let error := reducedError ratio in
  (ErrorRatio.range (Error.width error) == inject_Z (w mod div))%Q /\
  (ErrorRatio.range (Error.height error) == inject_Z (h mod div))%Q /\
  ErrorRatio.percent (Error.width error) =
    round (inject_Z (w mod div) / inject_Z w * 100) /\
  ErrorRatio.percent (Error.height error) =
    round (inject_Z (h mod div) / inject_Z h * 100) /\
  (0 <= ErrorRatio.percent (Error.width error) <= 50)%Q /\
  (0 <= ErrorRatio.percent (Error.height error) <= 50)%Q.
Proof.
  intros Hin w h div error.
  apply ratios_In in Hin. destruct Hin as [d [Hd ->]].
  subst div error. cbn [AcceptableRatio.div ratioOf].
  unfold reducedError.
  cbn [Error.width Error.height ErrorRatio.range ErrorRatio.percent
       AcceptableRatio.width AcceptableRatio.height AcceptableRatio.div ratioOf].
  fold w h.
  destruct (candidate_dimensions options d Hd) as [Hw Hh]. fold w h in Hw, Hh.
  assert (H2 : 2 * (Z.min w h / 2) <= Z.min w h) by (apply Z.mul_div_le; lia).
  fold w h in Hd.
  destruct (dimension_error w d ltac:(lia) ltac:(lia)) as [A1 [A2 [A3 A4]]].
  destruct (dimension_error h d ltac:(lia) ltac:(lia)) as [B1 [B2 [B3 B4]]].
  repeat split; assumption.
Qed.



(** X5. With the type "percent" and a tolerance of 50 or more, every
    divisor from 2 to half the smaller dimension gives an accepted
    error-bearing candidate. *)
Theorem X5_percent_50_accepts_all (options : Options.t) (ratio : AcceptableRatio.t) :
  Options.type options = Fuzz.percent ->
  (50 <= Options.tolerance options)%Q ->
  In ratio (ratios options) ->
  In (withError ratio (reducedError ratio)) (acceptableRatios options).
Proof.
  intros Htype Htol Hin.
  apply acceptableRatios_In. exists ratio. split; [ assumption | ].
  right. split; [ reflexivity | ].
  destruct (errors_of_a_divisor options ratio Hin)
    as [_ [_ [_ [_ [[_ Hw] [_ Hh]]]]]].
  unfold withinTolerance. rewrite Htype.
  apply andb_true_iff. split; apply Qle_bool_iff;
    eapply Qle_trans; eassumption.
Qed.

Lemma X5_witness :
  (50 <= 50)%Q /\
  In (ratioOf (Options.mk 17 9 Fuzz.percent 50 None) 3)
     (ratios (Options.mk 17 9 Fuzz.percent 50 None)) /\
  In (withError (ratioOf (Options.mk 17 9 Fuzz.percent 50 None) 3)
        (reducedError (ratioOf (Options.mk 17 9 Fuzz.percent 50 None) 3)))
     (acceptableRatios (Options.mk 17 9 Fuzz.percent 50 None)).
Proof.
  assert (Htol : (50 <= 50)%Q) by apply Qle_refl.
  assert (H : In (ratioOf (Options.mk 17 9 Fuzz.percent 50 None) 3)
                 (ratios (Options.mk 17 9 Fuzz.percent 50 None)))
    by (vm_compute; tauto).
  split; [ exact Htol | split; [ exact H | ] ].
  apply (X5_percent_50_accepts_all (Options.mk 17 9 Fuzz.percent 50 None) _
           eq_refl Htol H).
Defined.

(** ** Exact divisors *)

Lemma exact_quotient (n div : Z) :
  0 < div ->
  Qeq_bool (inject_Z n / inject_Z div)
           (inject_Z (Math_round (inject_Z n / inject_Z div))) = true
  <-> (div | n).
Proof.
  intros Hd.
  assert (Hback : (inject_Z n / inject_Z div * inject_Z div == inject_Z n)%Q)
    by (field; apply inject_Z_nonzero; lia).
  rewrite Qeq_bool_iff. split.
  - intros H. set (m := Math_round (inject_Z n / inject_Z div)) in *.
    exists m. apply inject_Z_injective.
    rewrite inject_Z_mult, <- H. symmetry. exact Hback.
  - intros [k ->].
    assert (E : (inject_Z (k * div) / inject_Z div == inject_Z k)%Q).
    { rewrite (Qdiv_exact (k * div) div) by (try lia; exists k; reflexivity).
      rewrite Z.div_mul by lia. reflexivity. }
    unfold Math_round.
    assert (E' : (inject_Z (k * div) / inject_Z div + (1 # 2)
                  == inject_Z k + (1 # 2))%Q) by (rewrite E; reflexivity).
    rewrite (Qfloor_comp _ _ E'), Qfloor_plus_half. exact E.
Qed.

Lemma isExact_divides (options : Options.t) (div : Z) :
  0 < div ->
  isExact (ratioOf options div) = true <->
  (div | Options.width options) /\ (div | Options.height options).
Proof.
  intros Hd. unfold isExact.
  cbn [ratioOf AcceptableRatio.width AcceptableRatio.height].
  rewrite andb_true_iff, !exact_quotient by assumption. tauto.
Qed.

Lemma exact_errors (options : Options.t) (ratio : AcceptableRatio.t) :
  In ratio (ratios options) ->
  isExact ratio = true ->
  let error := reducedError ratio in
  (ErrorRatio.range (Error.width error) == 0)%Q /\
  (ErrorRatio.range (Error.height error) == 0)%Q /\
  (ErrorRatio.percent (Error.width error) == 0)%Q /\
  (ErrorRatio.percent (Error.height error) == 0)%Q.
Proof.
  intros Hin Hexact error.
  destruct (errors_of_a_divisor options ratio Hin)
    as [Rw [Rh [Pw [Ph _]]]].
  fold error in Rw, Rh, Pw, Ph.
  apply ratios_In in Hin. destruct Hin as [d [Hd ->]].
  apply isExact_divides in Hexact; [ | lia ].
  destruct Hexact as [Hw Hh].
  cbn [AcceptableRatio.div ratioOf] in Rw, Rh, Pw, Ph.
  apply Z.mod_divide in Hw; [ | lia ]. apply Z.mod_divide in Hh; [ | lia ].
  rewrite Hw in Rw, Pw. rewrite Hh in Rh, Ph.
  destruct (candidate_dimensions options d Hd) as [Hw4 Hh4].
  assert (Z0 : forall n, 0 < n ->
             round (inject_Z 0 / inject_Z n * 100) = round 0).
  { intros n Hn. apply round_comp. field. apply inject_Z_nonzero. lia. }
  rewrite Z0 in Pw, Ph by lia.
  repeat split; try assumption.
  - rewrite Pw. reflexivity.
  - rewrite Ph. reflexivity.
Qed.

(** X6. A divisor gives an exact candidate exactly when it divides both
    dimensions. Then both its ranges and both its percentages are 0, so
    for any non-negative tolerance, of either type, the divisor is pushed
    twice: as the exact candidate and as an error-bearing one. *)
Theorem X6_exact_divisors (options : Options.t) (ratio : AcceptableRatio.t) :
  In ratio (ratios options) ->
  (isExact ratio = true <->
   (AcceptableRatio.div ratio | Options.width options) /\
   (AcceptableRatio.div ratio | Options.height options)) /\
  (isExact ratio = true ->
   (0 <= Options.tolerance options)%Q ->
   (ErrorRatio.range (Error.width (reducedError ratio)) == 0)%Q /\
   (ErrorRatio.range (Error.height (reducedError ratio)) == 0)%Q /\
   (ErrorRatio.percent (Error.width (reducedError ratio)) == 0)%Q /\
   (ErrorRatio.percent (Error.height (reducedError ratio)) == 0)%Q /\
   In ratio (acceptableRatios options) /\
   In (withError ratio (reducedError ratio)) (acceptableRatios options)).
Proof.
  intros Hin. split.
  - pose proof Hin as Hr. apply ratios_In in Hr. destruct Hr as [d [Hd ->]].
    cbn [AcceptableRatio.div ratioOf]. apply isExact_divides. lia.
  - intros Hexact Htol.
    destruct (exact_errors options ratio Hin Hexact) as [Rw [Rh [Pw Ph]]].
    repeat split; try assumption.
    + apply acceptableRatios_In. exists ratio. auto.
    + apply acceptableRatios_In. exists ratio. split; [ assumption | ].
      right. split; [ reflexivity | ].
      unfold withinTolerance.
      destruct (Options.type options); apply andb_true_iff; split;
        apply Qle_bool_iff;
        first [ rewrite Rw | rewrite Rh | rewrite Pw | rewrite Ph ];
        assumption.
Qed.

Lemma X6_witness :
  In (ratioOf four_by_six 2) (ratios four_by_six) /\
  isExact (ratioOf four_by_six 2) = true /\
  (0 <= Options.tolerance four_by_six)%Q /\
  In (ratioOf four_by_six 2) (acceptableRatios four_by_six) /\
  In (withError (ratioOf four_by_six 2) (reducedError (ratioOf four_by_six 2)))
     (acceptableRatios four_by_six).
Proof.
  assert (H : In (ratioOf four_by_six 2) (ratios four_by_six))
    by (vm_compute; tauto).
  assert (He : isExact (ratioOf four_by_six 2) = true) by reflexivity.
  assert (Ht : (0 <= Options.tolerance four_by_six)%Q) by apply Qle_refl.
  split; [ exact H | split; [ exact He | split; [ exact Ht | ] ] ].
  pose proof (proj2 (X6_exact_divisors four_by_six _ H) He Ht) as P.
  split; apply P.
Defined.

(** ** Tolerance and allow-list *)

Lemma withinTolerance_mono (options options' : Options.t) (error : Error.t) :
  Options.type options = Options.type options' ->
  (Options.tolerance options <= Options.tolerance options')%Q ->
  withinTolerance options error = true ->
  withinTolerance options' error = true.
Proof.
  unfold withinTolerance. intros <- Htol.
  destruct (Options.type options); rewrite !andb_true_iff, !Qle_bool_iff;
    intros [H1 H2]; split; eapply Qle_trans; eassumption.
Qed.

(** X7. Raising the tolerance never removes a candidate: two calls that
    differ only by a larger tolerance in the second rank every candidate
    that the first one ranks. *)
Theorem X7_tolerance_monotone (options options' : Options.t) (c : AcceptableRatio.t) :
  Options.width options = Options.width options' ->
  Options.height options = Options.height options' ->
  Options.type options = Options.type options' ->
  Options.allowedRatios options = Options.allowedRatios options' ->
  (Options.tolerance options <= Options.tolerance options')%Q ->
  In c (sorted options) -> In c (sorted options').
Proof.
  intros Hw Hh Ht Ha Htol Hc.
  apply sorted_In in Hc. destruct Hc as [Hc Hallowed].
  apply sorted_In. split.
  - apply acceptableRatios_In in Hc. destruct Hc as [ratio [Hr Hcase]].
    apply acceptableRatios_In. exists ratio. split.
    + unfold ratios, ratioOf in *. rewrite <- Hw, <- Hh. exact Hr.
    + destruct Hcase as [H | [Hce Hwithin]]; [ left; exact H | right ].
      split; [ assumption | ].
      apply (withinTolerance_mono options); assumption.
  - unfold isAllowed in *. rewrite <- Ha. exact Hallowed.
Qed.

Lemma X7_witness :
  (Options.tolerance sample_options
   <= Options.tolerance (Options.mk 17 9 Fuzz.percent 50 None))%Q /\
  In (withError (ratioOf sample_options 2) (reducedError (ratioOf sample_options 2)))
     (sorted sample_options) /\
  In (withError (ratioOf sample_options 2) (reducedError (ratioOf sample_options 2)))
     (sorted (Options.mk 17 9 Fuzz.percent 50 None)).
Proof.
  assert (Htol : (Options.tolerance sample_options
                  <= Options.tolerance (Options.mk 17 9 Fuzz.percent 50 None))%Q)
    by (vm_compute; discriminate).
  assert (H : In (withError (ratioOf sample_options 2)
                    (reducedError (ratioOf sample_options 2)))
                 (sorted sample_options))
    by (vm_compute; tauto).
  split; [ exact Htol | split; [ exact H | ] ].
  apply (X7_tolerance_monotone sample_options
           (Options.mk 17 9 Fuzz.percent 50 None) _
           eq_refl eq_refl eq_refl eq_refl Htol H).
Defined.

Lemma sorted_div (options : Options.t) (c : AcceptableRatio.t) :
  In c (sorted options) ->
  2 <= AcceptableRatio.div c
    <= Z.min (Options.width options) (Options.height options) / 2.
Proof.
  intros Hc. apply sorted_In in Hc. destruct Hc as [Hc _].
  apply acceptableRatios_In in Hc.
  destruct Hc as [ratio [Hr [[-> _] | [-> _]]]];
    apply ratios_In in Hr; destruct Hr as [d [Hd ->]]; exact Hd.
Qed.

Lemma sorted_on_list (options : Options.t) (allowedList : list Ratio.t)
    (c : AcceptableRatio.t) :
  Options.allowedRatios options = Some allowedList ->
  In c (sorted options) ->
  exists allowed,
    In allowed allowedList /\
    (Ratio.width allowed == effectiveWidth c)%Q /\
    (Ratio.height allowed == effectiveHeight c)%Q.
Proof.
  intros Hlist Hc. pose proof (sorted_div options c Hc) as Hdiv.
  apply sorted_In in Hc. destruct Hc as [_ Hallowed].
  unfold isAllowed in Hallowed. rewrite Hlist in Hallowed.
  apply orb_true_iff in Hallowed. destruct Hallowed as [H1 | Hex].
  - apply Z.eqb_eq in H1. lia.
  - apply existsb_exists in Hex. destruct Hex as [allowed [Hin Heq]].
    apply andb_true_iff in Heq. destruct Heq as [Hw Hh].
    apply Qeq_bool_iff in Hw. apply Qeq_bool_iff in Hh.
    exists allowed. repeat split; assumption.
Qed.

(** X8. The test [ratio.div === 1] of the allow-list filter never
    succeeds, since the divisors start at 2. So when [allowedRatios] is
    supplied, the pair of every [FuzzRatio] of the result is an entry of
    the list, without exception; and with an empty list the result is the
    bare [{ ratio }]. *)
Theorem X8_allow_list_is_strict (options : Options.t) (allowedList : list Ratio.t) :
  Options.allowedRatios options = Some allowedList ->
  (forall c, In c (acceptableRatios options) -> AcceptableRatio.div c <> 1) /\
  (forall fuzzed, surfaced (fuzzRatio options) fuzzed ->
     exists allowed,
       In allowed allowedList /\
       (Ratio.width allowed == inject_Z (FuzzRatio.width fuzzed))%Q /\
       (Ratio.height allowed == inject_Z (FuzzRatio.height fuzzed))%Q) /\
  (allowedList = [] -> bare (fuzzRatio options)).
Proof.
  intros Hlist. split; [ | split ].
  - intros c Hc. apply acceptableRatios_In in Hc.
    destruct Hc as [ratio [Hr [[-> _] | [-> _]]]];
      apply ratios_In in Hr; destruct Hr as [d [Hd ->]];
      cbn [withError ratioOf AcceptableRatio.div]; lia.
  - intros fuzzed H. apply surfaced_origin in H.
    destruct H as [c [e [Hc [He ->]]]].
    destruct (sorted_on_list options allowedList c Hlist Hc)
      as [allowed [Hin [Hw Hh]]].
    unfold effectiveWidth in Hw. unfold effectiveHeight in Hh.
    rewrite He in Hw, Hh.
    exists allowed. repeat split; assumption.
  - intros ->. unfold bare. rewrite fuzzRatio_fuzzed, fuzzRatio_alts.
    destruct (sorted options) as [ | first rest] eqn:E; [ split; reflexivity | ].
    exfalso.
    destruct (sorted_on_list options [] first Hlist) as [allowed [[] _]].
    rewrite E. left. reflexivity.
Qed.

Lemma X8_witness :
  Options.allowedRatios sample_allowed = Some [Ratio.mk 2 1; Ratio.mk 16 9] /\
  surfaced (fuzzRatio sample_allowed) sample_fuzzed /\
  exists allowed,
    In allowed [Ratio.mk 2 1; Ratio.mk 16 9] /\
    (Ratio.width allowed == inject_Z (FuzzRatio.width sample_fuzzed))%Q /\
    (Ratio.height allowed == inject_Z (FuzzRatio.height sample_fuzzed))%Q.
Proof.
  assert (H : surfaced (fuzzRatio sample_allowed) sample_fuzzed)
    by (left; vm_compute; reflexivity).
  split; [ reflexivity | split; [ exact H | ] ].
  apply (proj1 (proj2 (X8_allow_list_is_strict sample_allowed _ eq_refl))
           sample_fuzzed H).
Defined.

(** ** What a [FuzzRatio] of the result says *)

Lemma reducedError_ratios (options : Options.t) (div : Z) :
  2 <= div <= Z.min (Options.width options) (Options.height options) / 2 ->
  let w := Options.width options in
  let h := Options.height options in
  let error := reducedError (ratioOf options div) in
  ErrorRatio.ratio (Error.width error) = w / div / Z.gcd (w / div) (h / div) /\
  ErrorRatio.ratio (Error.height error) = h / div / Z.gcd (w / div) (h / div) /\
  ErrorRatio.mod_ (Error.width error) = w / div * div /\
  ErrorRatio.mod_ (Error.height error) = h / div * div /\
  2 <= w / div /\ 2 <= h / div.
Proof.
  intros Hdiv w h error.
  destruct (candidate_ratios options div Hdiv) as [Hw [Hh [Hw2 Hh2]]].
  fold w h in Hw, Hh.
  unfold error, reducedError.
  cbn [Error.width Error.height ErrorRatio.ratio ErrorRatio.mod_].
  change (AcceptableRatio.div (ratioOf options div)) with div.
  rewrite getGcd_gcd by lia.
  rewrite !Hw, !Hh in *.
  repeat split; try assumption; try reflexivity.
  - rewrite getError_mod_multiple, Hw by lia. reflexivity.
  - rewrite getError_mod_multiple, Hh by lia. reflexivity.
Qed.



Lemma reduced_quotients (w h div : Z) :
  0 < div -> 0 < w -> (div | w) -> (div | h) ->
  w / div / Z.gcd (w / div) (h / div) = w / Z.gcd w h /\
  h / div / Z.gcd (w / div) (h / div) = h / Z.gcd w h.
Proof.
  intros Hd Hw [a ->] [b ->].
  rewrite !Z.div_mul by lia.
  rewrite (Z.mul_comm a div), (Z.mul_comm b div).
  rewrite Z.gcd_mul_mono_l_nonneg by lia.
  assert (Hg : Z.gcd a b <> 0).
  { intros E. apply Z.gcd_eq_0_l in E. subst a. lia. }
  split; rewrite Z.div_mul_cancel_l by lia; reflexivity.
Qed.



(** X11. The [fuzzed] of the result is the candidate of least
    [width + height]: no candidate of the sorted array, exact or not, has
    a smaller sum, and in particular no entry of [alts]. *)
Theorem X11_fuzzed_has_least_sum (options : Options.t) (fuzzed : FuzzRatio.t) :
  Result.fuzzed (fuzzRatio options) = Some fuzzed ->
  (forall c, In c (sorted options) ->
     (inject_Z (FuzzRatio.width fuzzed + FuzzRatio.height fuzzed) <= sumOf c)%Q) /\
  (forall alt, surfaced (fuzzRatio options) alt ->
     FuzzRatio.width fuzzed + FuzzRatio.height fuzzed
     <= FuzzRatio.width alt + FuzzRatio.height alt).
Proof.
  intros Hf. rewrite fuzzRatio_fuzzed in Hf.
  destruct (sorted options) as [ | first rest] eqn:Es; [ discriminate | ].
  destruct (AcceptableRatio.error first) as [e | ] eqn:He; [ | discriminate ].
  injection Hf as <-.
  assert (Hsum : (inject_Z (FuzzRatio.width (toFuzzed first e)
                            + FuzzRatio.height (toFuzzed first e))
                  == sumOf first)%Q).
  { unfold sumOf. rewrite He, inject_Z_plus. reflexivity. }
  assert (Hleast : forall c, In c (first :: rest) ->
            (inject_Z (FuzzRatio.width (toFuzzed first e)
                       + FuzzRatio.height (toFuzzed first e)) <= sumOf c)%Q).
  { intros c [<- | Hc]; rewrite Hsum; [ apply Qle_refl | ].
    apply (sorted_least options first rest Es). assumption. }
  split; [ exact Hleast | ].
  intros alt Halt. apply surfaced_origin in Halt.
  destruct Halt as [c [e' [Hc [He' ->]]]]. rewrite Es in Hc.
  specialize (Hleast c Hc). unfold sumOf in Hleast. rewrite He' in Hleast.
  rewrite <- inject_Z_plus, <- Zle_Qle in Hleast. exact Hleast.
Qed.

Lemma X11_witness :
  Result.fuzzed (fuzzRatio sample_options) = Some sample_fuzzed /\
  forall alt, surfaced (fuzzRatio sample_options) alt ->
    FuzzRatio.width sample_fuzzed + FuzzRatio.height sample_fuzzed
    <= FuzzRatio.width alt + FuzzRatio.height alt.
Proof.
  assert (H : Result.fuzzed (fuzzRatio sample_options) = Some sample_fuzzed)
    by (vm_compute; reflexivity).
  split; [ exact H | ].
  apply (proj2 (X11_fuzzed_has_least_sum sample_options sample_fuzzed H)).
Defined.

(** ** The ranking *)

Lemma Array_sort_insert_stable (s : Q) (a : AcceptableRatio.t)
    (l : list AcceptableRatio.t) :
  filter (fun c => Qeq_bool (sumOf c) s) (Array_sort_insert compareSums a l) =
  filter (fun c => Qeq_bool (sumOf c) s) (a :: l).
Proof.
  induction l as [ | y l IH]; [ reflexivity | ].
  cbn [Array_sort_insert].
  destruct (0 <? compareSums a y) eqn:Hc; [ | reflexivity ].
  apply compareSums_pos in Hc.
  cbn [filter] in *. rewrite IH.
  destruct (Qeq_bool (sumOf a) s) eqn:Ea; [ | reflexivity ].
  destruct (Qeq_bool (sumOf y) s) eqn:Ey; [ | reflexivity ].
  apply Qeq_bool_iff in Ea. apply Qeq_bool_iff in Ey.
  rewrite Ea, Ey in Hc. exfalso. apply (Qlt_irrefl s). exact Hc.
Qed.

(** X12. The sorted array holds the candidates that passed the filter,
    each as often as before, by non-decreasing sum of their effective
    pair; candidates of equal sum stay in the order in which they were
    pushed, so an exact candidate stays before the error-bearing one of
    the same divisor when their sums are equal. *)
Theorem X12_ranking (options : Options.t) :
  Permutation (sorted options) (allowedRatios options) /\
  StronglySorted (fun left right => (sumOf left <= sumOf right)%Q)
                 (sorted options) /\
  forall s : Q,
    filter (fun c => Qeq_bool (sumOf c) s) (sorted options) =
    filter (fun c => Qeq_bool (sumOf c) s) (allowedRatios options).
Proof.
  split; [ apply Array_sort_Permutation | ].
  split; [ apply sorted_by_sum | ].
  intros s. unfold sorted. generalize (allowedRatios options) as l. intros l.
  induction l as [ | a l IH]; [ reflexivity | ].
  cbn [Array_sort]. rewrite Array_sort_insert_stable.
  cbn [filter]. rewrite IH. reflexivity.
Qed.

(** ** The earlier version *)

Lemma Legacy_getDivisors_eq (lhs rhs : Z) (divs : list Z) :
  Legacy.getDivisors lhs rhs divs =
  if rhs =? 0 then inl Legacy.RangeError
  else if Z.rem lhs rhs =? 0 then inr divs
  else Legacy.getDivisors rhs (Z.rem lhs rhs) (divs ++ [Z.rem lhs rhs]).
Proof.
  rewrite Legacy.getDivisors_equation_1.
  destruct (Z.eq_dec rhs 0) as [E | E], (Z.eqb_spec rhs 0) as [E1 | E1];
    try contradiction; simpl; [ reflexivity | ].
  destruct (Z.eq_dec (Z.rem lhs rhs) 0) as [E' | E'],
           (Z.eqb_spec (Z.rem lhs rhs) 0) as [E2 | E2];
    try contradiction; reflexivity.
Qed.

Lemma Legacy_getDivisors_spec (rhs : Z) :
  0 < rhs ->
  forall lhs divs, 0 <= lhs ->
  exists rems,
    Legacy.getDivisors lhs rhs divs = inr (divs ++ rems) /\
    (rems = [] <-> (rhs | lhs)) /\
    Forall (fun d => 0 < d < rhs) rems /\
    StronglySorted Z.gt rems /\
    (rems <> [] -> last rems 0 = Z.gcd lhs rhs).
Proof.
  intros Hr. assert (H0 : 0 <= rhs) by lia. revert Hr.
  pattern rhs. apply Zlt_0_ind; [ | assumption ].
  clear rhs H0. intros r IH _ Hr l divs Hl.
  rewrite Legacy_getDivisors_eq.
  destruct (Z.eqb_spec r 0) as [E | _]; [ lia | ].
  rewrite Z.rem_mod_nonneg by lia.
  pose proof (Z.mod_pos_bound l r Hr) as Hb.
  destruct (Z.eqb_spec (l mod r) 0) as [E | E].
  - exists []. rewrite app_nil_r.
    split; [ reflexivity | ].
    split; [ split; [ intros _; apply Z.mod_divide; lia | reflexivity ] | ].
    split; [ constructor | ]. split; [ constructor | ].
    intros H. contradiction.
  - destruct (IH (l mod r) ltac:(lia) ltac:(lia) r (divs ++ [l mod r]) ltac:(lia))
      as [rems [Hcall [Hnil [Hall [Hsorted Hlast]]]]].
    exists (l mod r :: rems).
    split; [ rewrite Hcall, <- app_assoc; reflexivity | ].
    split.
    { split; [ discriminate | ].
      intros Hd. apply Z.mod_divide in Hd; [ contradiction | lia ]. }
    split.
    { constructor; [ lia | ].
      eapply Forall_impl; [ | exact Hall ]. cbv beta. intros d Hd. lia. }
    split.
    { constructor; [ assumption | ].
      eapply Forall_impl; [ | exact Hall ]. cbv beta. intros d Hd. lia. }
    intros _.
    assert (Hg : Z.gcd l r = Z.gcd r (l mod r))
      by (rewrite (Z.gcd_comm l r); symmetry; apply Z.gcd_mod_r).
    destruct rems as [ | d rems'].
    + cbn [last]. rewrite Hg.
      assert (Hd : (l mod r | r)) by (apply Hnil; reflexivity).
      clear - Hd Hb E. remember (l mod r) as m eqn:Hm. clear Hm.
      destruct Hd as [k ->]. symmetry.
      rewrite Z.gcd_comm, Z.mul_comm. apply Z.gcd_mul_diag_l. lia.
    + change (last (l mod r :: d :: rems') 0) with (last (d :: rems') 0).
      rewrite Hlast by discriminate. symmetry. exact Hg.
Qed.

(** X13. The earlier [getDivisors] collects the non-zero remainders of
    Euclid's algorithm: for [left >= 0] and [right > 0] it returns a
    strictly decreasing list of integers between 1 and [right - 1], empty
    exactly when [right] divides [left], and otherwise ending with the
    gcd of the two arguments. With [right = 0] the recursion never ends. *)
Theorem X13_legacy_getDivisors (lhs rhs : Z) :
  (0 <= lhs -> 0 < rhs ->
   exists rems,
     Legacy.getDivisors lhs rhs [] = inr rems /\
     (rems = [] <-> (rhs | lhs)) /\
     Forall (fun d => 0 < d < rhs) rems /\
     StronglySorted Z.gt rems /\
     (rems <> [] -> last rems 0 = Z.gcd lhs rhs)) /\
  Legacy.getDivisors lhs 0 [] = inl Legacy.RangeError.
Proof.
  split.
  - intros Hl Hr.
    destruct (Legacy_getDivisors_spec rhs Hr lhs [] Hl) as [rems H].
    exists rems. exact H.
  - rewrite Legacy_getDivisors_eq. reflexivity.
Qed.

Lemma X13_witness :
  0 <= 796 /\ 0 < 1134 /\
  exists rems,
    Legacy.getDivisors 796 1134 [] = inr rems /\
    (rems <> [] -> last rems 0 = Z.gcd 796 1134).
Proof.
  split; [ lia | split; [ lia | ] ].
  destruct (proj1 (X13_legacy_getDivisors 796 1134) ltac:(lia) ltac:(lia))
    as [rems [H1 [_ [_ [_ H5]]]]].
  exists rems. split; assumption.
Defined.

Lemma last_In {A : Type} (l : list A) (d : A) : l <> [] -> In (last l d) l.
Proof.
  induction l as [ | a l IH]; [ contradiction | ].
  intros _. destruct l as [ | b l]; [ left; reflexivity | ].
  right. apply IH. discriminate.
Qed.

Lemma Legacy_sorted_In (options : Options.t) (divs : list Z) (div : Z) :
  In div divs ->
  isExact (ratioOf options div) = true ->
  isAllowed options (ratioOf options div) = true ->
  In (ratioOf options div) (Legacy.sorted options divs).
Proof.
  intros Hin Hexact Hallowed. unfold Legacy.sorted.
  apply Array_sort_In. apply filter_In. split; [ | assumption ].
  rewrite fold_evaluate, app_nil_l. apply in_flat_map.
  exists (ratioOf options div). split; [ apply in_map; assumption | ].
  apply evaluate_In. left. split; [ reflexivity | assumption ].
Qed.

(** X14. On positive dimensions the earlier [fuzzRatio] throws a
    [TypeError] whenever [height] divides [width]: there is no divisor
    then, and [sorted[0].error] is read on an empty array. When [height]
    does not divide [width], the gcd of the dimensions is a divisor and
    gives an exact candidate, so the call returns if no allow-list is
    given or if the gcd is 1, the case that the test [ratio.div === 1]
    lets through. It never overflows the stack, and what it returns has
    the [ratio] that the current [fuzzRatio] returns. *)
Theorem X14_legacy_fuzzRatio (options : Options.t) :
  0 < Options.width options ->
  0 < Options.height options ->
  let w := Options.width options in
  let h := Options.height options in
  ((h | w) -> Legacy.fuzzRatio options = inl Legacy.TypeError) /\
  (~ (h | w) ->
   Options.allowedRatios options = None \/ Z.gcd w h = 1 ->
   exists result, Legacy.fuzzRatio options = inr result) /\
  Legacy.fuzzRatio options <> inl Legacy.RangeError /\
  (forall result,
     Legacy.fuzzRatio options = inr result ->
     Legacy.Result.ratio result = Result.ratio (fuzzRatio options)).
Proof.
  intros Hw Hh w h.
  destruct (Legacy_getDivisors_spec h Hh w [] ltac:(lia))
    as [rems [Hcall [Hnil [Hall [_ Hlast]]]]].
  rewrite app_nil_l in Hcall.
  unfold Legacy.fuzzRatio. fold w h. rewrite Hcall.
  split; [ | split; [ | split ] ].
  - intros Hd. apply Hnil in Hd. subst rems. reflexivity.
  - intros Hnd Hcase.
    assert (Hne : rems <> []) by (intros E; apply Hnd, Hnil, E).
    specialize (Hlast Hne).
    pose proof (last_In rems 0 Hne) as Hin. rewrite Hlast in Hin.
    assert (Hg : 0 < Z.gcd w h).
    { rewrite Forall_forall in Hall. apply (Hall _ Hin). }
    assert (Hs : In (ratioOf options (Z.gcd w h)) (Legacy.sorted options rems)).
    { apply Legacy_sorted_In; [ assumption | | ].
      - apply isExact_divides; [ assumption | ].
        split; [ apply Z.gcd_divide_l | apply Z.gcd_divide_r ].
      - unfold isAllowed. destruct Hcase as [-> | H1]; [ reflexivity | ].
        destruct (Options.allowedRatios options); [ | reflexivity ].
        cbn [ratioOf AcceptableRatio.div]. fold w h. rewrite H1. reflexivity. }
    destruct (Legacy.sorted options rems) as [ | first rest];
      [ destruct Hs | eexists; reflexivity ].
  - destruct (Legacy.sorted options rems); discriminate.
  - intros result. rewrite fuzzRatio_ratio.
    destruct (Legacy.sorted options rems); [ discriminate | ].
    intros [= <-]. reflexivity.
Qed.

Lemma X14_witness :
  0 < 4 /\ 0 < 2 /\ (2 | 4) /\
  Legacy.fuzzRatio (Options.mk 4 2 Fuzz.percent 3 None) = inl Legacy.TypeError /\
  exists result,
    Legacy.fuzzRatio (Options.mk 17 9 Fuzz.percent 3 (Some [])) = inr result.
Proof.
  assert (Hd : (2 | 4)) by (exists 2; reflexivity).
  split; [ lia | split; [ lia | split; [ exact Hd | ] ] ].
  split.
  - apply (proj1 (X14_legacy_fuzzRatio (Options.mk 4 2 Fuzz.percent 3 None)
                    ltac:(simpl; lia) ltac:(simpl; lia)) Hd).
  - apply (proj1 (proj2 (X14_legacy_fuzzRatio
                    (Options.mk 17 9 Fuzz.percent 3 (Some []))
                    ltac:(simpl; lia) ltac:(simpl; lia)))).
    + simpl. intros [k Hk]. lia.
    + right. reflexivity.
Defined.

(** ** When an exact candidate wins *)

Lemma exact_winner (options : Options.t) (first : AcceptableRatio.t)
    (rest : list AcceptableRatio.t) :
  sorted options = first :: rest ->
  AcceptableRatio.error first = None ->
  exists div,
    2 <= div <= Z.min (Options.width options) (Options.height options) / 2 /\
    first = ratioOf options div /\
    (div | Options.width options) /\ (div | Options.height options).
Proof.
  intros Es He.
  assert (Hin : In first (sorted options)) by (rewrite Es; left; reflexivity).
  apply sorted_In in Hin. destruct Hin as [Hin _].
  apply acceptableRatios_In in Hin.
  destruct Hin as [ratio [Hr [[-> Hexact] | [-> _]]]]; [ | discriminate ].
  apply ratios_In in Hr. destruct Hr as [div [Hdiv ->]].
  exists div. split; [ assumption | ]. split; [ reflexivity | ].
  apply isExact_divides; [ lia | assumption ].
Qed.

(** X15. With no allow-list and a non-negative tolerance, a result whose
    [fuzzed] is undefined although candidates exist still shows the true
    ratio: the winner is then an exact candidate in lowest terms, and
    [alts] has an entry with the pair of [ratio] and with both
    percentages adding up to 0. *)
Theorem X15_exact_winner_is_in_alts (options : Options.t) (alts : list FuzzRatio.t) :
  Options.allowedRatios options = None ->
  (0 <= Options.tolerance options)%Q ->
  Result.fuzzed (fuzzRatio options) = None ->
  Result.alts (fuzzRatio options) = Some alts ->
  exists alt,
    In alt alts /\
    (inject_Z (FuzzRatio.width alt)
     == Ratio.width (Result.ratio (fuzzRatio options)))%Q /\
    (inject_Z (FuzzRatio.height alt)
     == Ratio.height (Result.ratio (fuzzRatio options)))%Q /\
    (percentSum alt <= 0)%Q.
Proof.
  intros Hnone Htol Hf Ha.
  rewrite fuzzRatio_fuzzed in Hf. rewrite fuzzRatio_alts in Ha.
  destruct (sorted options) as [ | first rest] eqn:Es; [ discriminate | ].
  injection Ha as <-.
  destruct (AcceptableRatio.error first) as [e0 | ] eqn:He; [ discriminate | ].
  destruct (exact_winner options first rest Es He) as [div [Hdiv [-> [Dw Dh]]]].
  set (ratio := ratioOf options div) in *.
  set (e := reducedError ratio).
  set (twin := withError ratio e).
  assert (Hr : In ratio (ratios options))
    by (apply ratios_In; exists div; split; [ assumption | reflexivity ]).
  assert (Hexact : isExact ratio = true)
    by (apply isExact_divides; [ lia | split; assumption ]).
  destruct (exact_errors options ratio Hr Hexact) as [_ [_ [Pw Ph]]].
  fold e in Pw, Ph.
  assert (Htwin : In twin (sorted options)).
  { apply sorted_In. split.
    - apply acceptableRatios_In. exists ratio. split; [ assumption | ].
      right. split; [ reflexivity | ].
      fold e. unfold withinTolerance.
      destruct (errors_of_a_divisor options ratio Hr) as [Rw [Rh _]].
      fold e in Rw, Rh. cbn [AcceptableRatio.div ratio ratioOf] in Rw, Rh.
      apply Z.mod_divide in Dw; [ | lia ]. apply Z.mod_divide in Dh; [ | lia ].
      rewrite Dw in Rw. rewrite Dh in Rh.
      destruct (Options.type options); apply andb_true_iff; split;
        apply Qle_bool_iff;
        first [ rewrite Pw | rewrite Ph | rewrite Rw | rewrite Rh ];
        assumption.
    - unfold isAllowed. rewrite Hnone. reflexivity. }
  rewrite Es in Htwin. destruct Htwin as [Heq | Htwin].
  { exfalso. unfold twin, ratio in Heq. discriminate Heq. }
  pose proof (sorted_least options ratio rest Es twin Htwin) as Hsum.
  destruct (reducedError_ratios options div Hdiv)
    as [Qw [Qh [_ [_ [Hw2 Hh2]]]]].
  fold ratio e in Qw, Qh.
  destruct (candidate_dimensions options div Hdiv) as [Hw4 Hh4].
  set (w := Options.width options) in *.
  set (h := Options.height options) in *.
  set (g := Z.gcd (w / div) (h / div)) in *.
  assert (Hg : 0 < g).
  { pose proof (Z.gcd_nonneg (w / div) (h / div)) as Hn. fold g in Hn.
    destruct (Z.eq_dec g 0) as [E | E]; [ | lia ].
    apply Z.gcd_eq_0_l in E. lia. }
  destruct (Z.gcd_divide_l (w / div) (h / div)) as [a Hga].
  destruct (Z.gcd_divide_r (w / div) (h / div)) as [b Hgb].
  fold g in Hga, Hgb.
  assert (Ea : ErrorRatio.ratio (Error.width e) = a)
    by (rewrite Qw, Hga; apply Z.div_mul; lia).
  assert (Eb : ErrorRatio.ratio (Error.height e) = b)
    by (rewrite Qh, Hgb; apply Z.div_mul; lia).
  assert (Hg1 : g = 1).
  { unfold sumOf in Hsum.
    cbn [twin withError AcceptableRatio.error ratio ratioOf
         AcceptableRatio.width AcceptableRatio.height] in Hsum.
    fold w h in Hsum.
    rewrite !Qdiv_exact in Hsum by (try lia; assumption).
    rewrite Ea, Eb, <- !inject_Z_plus, <- Zle_Qle in Hsum. nia. }
  destruct (inv_best _ _ (alts_of_rest rest) twin e Htwin eq_refl)
    as [kept [Hget Hle]].
  apply Map_get_In in Hget.
  destruct (inv_entries _ _ (alts_of_rest rest) _ _ Hget) as [Hid _].
  symmetry in Hid. apply idOf_inj in Hid. destruct Hid as [Kw Kh].
  cbn [toFuzzed FuzzRatio.width FuzzRatio.height] in Kw, Kh.
  exists kept. split.
  { unfold Map_values. apply in_map_iff.
    exists (idOf (toFuzzed twin e), kept). split; [ reflexivity | assumption ]. }
  destruct (reduced_quotients w h div ltac:(lia) ltac:(lia) Dw Dh) as [Rw Rh].
  fold g in Rw, Rh. rewrite <- Qw in Rw. rewrite <- Qh in Rh.
  rewrite fuzzRatio_ratio. unfold unfuzzed. fold w h.
  cbn [Ratio.width Ratio.height].
  rewrite getGcd_gcd by lia.
  assert (Hgcd : Z.gcd w h <> 0)
    by (intros E; apply Z.gcd_eq_0_l in E; lia).
  rewrite !Qdiv_exact by (try assumption;
    first [ apply Z.gcd_divide_l | apply Z.gcd_divide_r ]).
  rewrite Kw, Kh, Rw, Rh.
  split; [ reflexivity | ]. split; [ reflexivity | ].
  apply Qle_trans with (percentSum (toFuzzed twin e)); [ assumption | ].
  unfold percentSum.
  cbn [toFuzzed FuzzRatio.error FuzzError.width FuzzError.height
       RatioError.percent].
  rewrite Pw, Ph. discriminate.
Qed.

Lemma X15_witness :
  Options.allowedRatios four_by_six = None /\
  (0 <= Options.tolerance four_by_six)%Q /\
  Result.fuzzed (fuzzRatio four_by_six) = None /\
  exists alts alt,
    Result.alts (fuzzRatio four_by_six) = Some alts /\
    In alt alts /\
    (inject_Z (FuzzRatio.width alt)
     == Ratio.width (Result.ratio (fuzzRatio four_by_six)))%Q.
Proof.
  assert (Ht : (0 <= Options.tolerance four_by_six)%Q) by apply Qle_refl.
  assert (Hf : Result.fuzzed (fuzzRatio four_by_six) = None)
    by (vm_compute; reflexivity).
  split; [ reflexivity | split; [ exact Ht | split; [ exact Hf | ] ] ].
  eexists.
  assert (Ha : Result.alts (fuzzRatio four_by_six) = Some _)
    by (vm_compute; reflexivity).
  destruct (X15_exact_winner_is_in_alts four_by_six _ eq_refl Ht Hf Ha)
    as [alt [Hin [Hw _]]].
  exists alt. split; [ exact Ha | split; assumption ].
Defined.
